(** * jasper: the basic process and its thread-safe wrapper

    A shallow embedding of [basicProcess] and [localProcess]
    (run_benchmarks.go, package jasper) and the properties of the
    process-lifecycle specification that are decided by that code.

    Conventions.
    - A Go pointer that the code compares with [nil] is an [option].
    - A Go [error] value is an [option err]; [None] is the nil error.
    - A nil-pointer dereference is the outcome [Panic].
    - What the operating system or the Go runtime decides (whether a
      child starts, the iteration order of a map, which goroutine runs
      next) is an explicit argument of the definition that depends on it. *)

From Stdlib Require Import ZArith.
From stdpp Require Import base option list gmap sets strings.

Local Open Scope string_scope.
Local Open Scope Z_scope.
Local Open Scope list_scope.

(** ** Go values *)

Module Go.


(** Result of a call: it returns, it panics (a nil-pointer
    dereference), or it never returns. *)
Inductive outcome (A : Type) : Type :=
| Ret (a : A)
| Panic
| Blocks.
Arguments Ret {A} a.
Arguments Panic {A}.
Arguments Blocks {A}.

Definition bind {A B} (m : outcome A) (k : A → outcome B) : outcome B :=
  match m with
  | Ret a => k a
  | Panic => Panic
  | Blocks => Blocks
  end.

Definition fmap_outcome {A B} (f : A → B) (m : outcome A) : outcome B :=
  bind m (λ a, Ret (f a)).

(** A slice: the nil slice and an allocated slice of length zero are
    different values with the same elements. *)
Inductive slice (A : Type) : Type :=
| NilSlice
| Slice (xs : list A).
Arguments NilSlice {A}.
Arguments Slice {A} xs.

Definition elems {A} (s : slice A) : list A :=
  match s with
  | NilSlice => []
  | Slice xs => xs
  end.

Definition is_nil_slice {A} (s : slice A) : bool :=
  match s with
  | NilSlice => true
  | Slice _ => false
  end.

(** [append(s, x)]: the result is always allocated. *)
Definition append {A} (s : slice A) (x : A) : slice A :=
  Slice (elems s ++ [x]).

End Go.

Export Go.

#[global] Instance outcome_bind : MBind outcome := λ A B k m, Go.bind m k.
#[global] Instance outcome_ret : MRet outcome := λ A a, Ret a.
#[global] Instance outcome_fmap : FMap outcome := λ A B f m, Go.fmap_outcome f m.

(** ** Errors (github.com/pkg/errors, os, context) *)

(** [syscall.Signal]. *)
Definition syscall_Signal := Z.

Inductive fmt_arg : Type :=
| ArgSignal (sig : syscall_Signal)
| ArgString (s : string).

Inductive err : Type :=
| Fundamental (msg : string)                               (* errors.New *)
| WithStackErr (cause : err)                               (* errors.WithStack *)
| WithMessage (cause : err) (fmt : string) (args : list fmt_arg)
                                                           (* errors.Wrap, errors.Wrapf *)
| SysErr (code : Z)                                        (* an error of the OS *)
| ExitErr (code : Z)                                       (* exec.ExitError *)
| CtxCanceled                                              (* context.Canceled *)
| CtxDeadlineExceeded.                                     (* context.DeadlineExceeded *)

Definition error := option err.

Module errors.

Definition New (msg : string) : error := Some (Fundamental msg).

(** [WithStack] and [Wrapf] return nil for a nil argument. *)
Definition WithStack (e : error) : error :=
  match e with
  | None => None
  | Some c => Some (WithStackErr c)
  end.

Definition Wrapf (e : error) (fmt : string) (args : list fmt_arg) : error :=
  match e with
  | None => None
  | Some c => Some (WithMessage c fmt args)
  end.

Definition Wrap (e : error) (msg : string) : error := Wrapf e msg [].

End errors.

(** ** The OS handle (os/exec, os) *)

(** [os.ProcessState]: what [Exited()] and [Success()] report. *)
Record ProcessState := {
  ps_Exited : bool;
  ps_Success : bool;
}.

(** [os.Process]. *)
Record OsProcess := {
  Pid : Z;
}.

(** [exec.Cmd]: the two fields the process code reads. *)
Record Cmd := {
  cmd_Process : option OsProcess;
  cmd_ProcessState : option ProcessState;
}.

(** [ProcessState.Success()], a method on a pointer receiver: it reads
    the receiver, so it panics on nil. *)
Definition Success (st : option ProcessState) : outcome bool :=
  match st with
  | Some s => Ret (ps_Success s)
  | None => Panic
  end.

(** [cmd.Start()]: the OS either gives the child a pid, which is stored in
    [cmd.Process], or refuses, and then [cmd.Process] stays as it was. *)
Definition Start (os_pid : option Z) (c : Cmd) : Cmd * error :=
  match os_pid with
  | Some pid => ({| cmd_Process := Some {| Pid := pid |};
                    cmd_ProcessState := cmd_ProcessState c |}, None)
  | None => (c, Some (SysErr 2))
  end.

(** A context: [Err()] is non-nil exactly when [Done()] is closed. *)
Record Context := {
  ctx_Err : error;
}.

Definition ctx_Done (ctx : Context) : bool := bool_decide (is_Some (ctx_Err ctx)).

(** ** Shared types of the package *)

(** The creation options: the tag sequence and the started flag are the
    fields the process code touches; [opt_Args] stands for the rest. *)
Record CreateOptions := {
  opt_Args : list string;
  opt_Tags : slice string;
  opt_started : bool;
}.

Record ProcessInfo := {
  info_ID : string;
  info_Options : CreateOptions;
  info_Host : string;
  info_Complete : bool;
  info_IsRunning : bool;
  info_Successful : bool;
  info_PID : Z;
}.

(** A trigger is a callback; it is identified by a name, and calling it
    is recorded in a log. *)
Definition ProcessTrigger := string.
Definition ProcessTriggerSequence := list ProcessTrigger.

(** ** basicProcess *)

Record basicProcess := {
  id : string;
  hostname : string;
  opts : CreateOptions;
  cmd : option Cmd;
  tags : gset string;
  triggers : ProcessTriggerSequence;
}.

Definition set_opts_Tags (o : CreateOptions) (ts : slice string) : CreateOptions :=
  {| opt_Args := opt_Args o; opt_Tags := ts; opt_started := opt_started o |}.

Definition set_opts_started (o : CreateOptions) (b : bool) : CreateOptions :=
  {| opt_Args := opt_Args o; opt_Tags := opt_Tags o; opt_started := b |}.

Definition set_tags (p : basicProcess) (ts : gset string) (os : CreateOptions) : basicProcess :=
  {| id := id p; hostname := hostname p; opts := os; cmd := cmd p;
     tags := ts; triggers := triggers p |}.

Definition set_triggers (p : basicProcess) (trs : ProcessTriggerSequence) : basicProcess :=
  {| id := id p; hostname := hostname p; opts := opts p; cmd := cmd p;
     tags := tags p; triggers := trs |}.

Definition set_cmd (p : basicProcess) (c : option Cmd) : basicProcess :=
  {| id := id p; hostname := hostname p; opts := opts p; cmd := c;
     tags := tags p; triggers := triggers p |}.

(** [p.cmd.Process.Pid], with both dereferences. *)
Definition cmd_Pid (c : Cmd) : outcome Z :=
  match cmd_Process c with
  | Some pr => Ret (Pid pr)
  | None => Panic
  end.

(** [p.cmd.ProcessState != nil && p.cmd.ProcessState.Exited()] *)
Definition state_exited (c : Cmd) : bool :=
  match cmd_ProcessState c with
  | Some st => ps_Exited st
  | None => false
  end.

(** [p.cmd.ProcessState != nil && !p.cmd.ProcessState.Exited()] *)
Definition state_not_exited (c : Cmd) : bool :=
  match cmd_ProcessState c with
  | Some st => negb (ps_Exited st)
  | None => false
  end.

Definition ID (p : basicProcess) : string := id p.

Definition Complete (p : basicProcess) : outcome bool :=
  match cmd p with
  | None => Ret false
  | Some c =>
      if state_exited c then Ret true
      else pid ← cmd_Pid c ; Ret (pid =? -1)
  end.

Definition Running (p : basicProcess) : outcome bool :=
  match cmd p with
  | None => Ret false
  | Some c =>
      match cmd_Process c with
      | None => Ret false
      | Some pr =>
          if state_not_exited c then Ret true
          else if Pid pr <? 0 then Ret false
          else Ret true
      end
  end.

Definition Info (p : basicProcess) : outcome ProcessInfo :=
  complete ← Complete p;
  running ← Running p;
  (* if info.Complete { Successful = ...; PID = -1 } *)
  sp ← (if complete
        then (s ← match cmd p with
                  | Some c => Success (cmd_ProcessState c)
                  | None => Panic
                  end ; Ret (s, -1))
        else Ret (false, 0));
  (* if info.IsRunning { PID = p.cmd.Process.Pid } *)
  pid ← (if running
         then match cmd p with
              | Some c => cmd_Pid c
              | None => Panic
              end
         else Ret (snd sp));
  Ret {| info_ID := id p;
         info_Options := opts p;
         info_Host := hostname p;
         info_Complete := complete;
         info_IsRunning := running;
         info_Successful := fst sp;
         info_PID := pid |}.

(** Effects on the world outside the process object: the signals the OS
    accepted for delivery and the trigger calls made, oldest first. *)
Record effects := {
  delivered : list (Z * syscall_Signal);
  fired : list (ProcessTrigger * ProcessInfo);
}.

Definition no_effects : effects := {| delivered := []; fired := [] |}.

(** [p.cmd.Process.Pid] starting from the pointer [p.cmd]. *)
Definition deref_Pid (c : option Cmd) : outcome Z :=
  match c with
  | Some c => cmd_Pid c
  | None => Panic
  end.

(** [Signal]: [os_res] is what the OS answers to [Process.Signal(sig)]. *)
Definition Signal (os_res : error) (sig : syscall_Signal) (p : basicProcess) (w : effects)
  : outcome (error * effects) :=
  pid ← deref_Pid (cmd p);
  Ret (errors.Wrapf os_res "problem sending signal '%s' to '%s'"
         [ArgSignal sig; ArgString (id p)],
       match os_res with
       | None => {| delivered := delivered w ++ [(pid, sig)]; fired := fired w |}
       | Some _ => w
       end).

Definition RegisterTrigger (trigger : option ProcessTrigger) (p : basicProcess)
  : outcome (error * basicProcess) :=
  (* p.cmd != nil || p.cmd.Process.Pid == -1 *)
  guard ← (if bool_decide (cmd p ≠ None) then Ret true
           else pid ← deref_Pid (cmd p); Ret (pid =? -1));
  if guard : bool then
    Ret (errors.New "cannot register trigger for complete project", p)
  else
    match trigger with
    | None => Ret (errors.New "cannot register nil trigger", p)
    | Some t => Ret (None, set_triggers p (triggers p ++ [t]))
    end.

Definition Tag (t : string) (p : basicProcess) : basicProcess :=
  if bool_decide (t ∈ tags p) then p
  else set_tags p ({[t]} ∪ tags p)
         (set_opts_Tags (opts p) (append (opt_Tags (opts p)) t)).

Definition ResetTags (p : basicProcess) : basicProcess :=
  set_tags p ∅ (set_opts_Tags (opts p) (Slice [])).

(** [for t := range p.tags]: the runtime visits the keys of the map in an
    order of its choosing, each key once. *)
Definition map_range_order (m : gset string) (order : list string) : Prop :=
  NoDup order ∧ ∀ t, t ∈ order ↔ t ∈ m.

Definition GetTags (order : list string) (p : basicProcess) : slice string :=
  fold_left (λ out t, append out t) order (Slice []).

(** [newBasicProcess]: [resolved] is the result of [opts.Resolve(ctx)],
    [os_pid] what the OS answers to [cmd.Start()], [uuid] and [host] the
    generated identifier and [os.Hostname()].  The caller's options are
    returned as well, since [opts.started] is assigned through the pointer. *)
Definition newBasicProcess (resolved : err + Cmd) (os_pid : option Z)
    (uuid host : string) (o : CreateOptions)
  : option basicProcess * error * CreateOptions :=
  match resolved with
  | inl e => (None, errors.Wrap (Some e) "problem building command from options", o)
  | inr c =>
      let c' := fst (Start os_pid c) in
      let o' := set_opts_started o true in
      let p := {| id := uuid; hostname := host; opts := o'; cmd := Some c';
                  tags := ∅; triggers := [] |} in
      (Some (fold_left (λ p t, Tag t p) (elems (opt_Tags o')) p), None, o')
  end.

(** The two early returns of [Wait]: [Some e] when [Wait] returns [e]
    before it starts the background waiter. *)
Definition Wait_early (p : basicProcess) : option error :=
  match cmd p with
  | None => Some None
  | Some c =>
      match cmd_Process c with
      | None => Some None
      | Some _ => if state_exited c then Some None else None
      end
  end.

(** The tag set and the tag sequence agree: the sequence has no
    duplicates and holds exactly the members of the set. *)
Definition tags_consistent (p : basicProcess) : Prop :=
  NoDup (elems (opt_Tags (opts p))) ∧
  ∀ t, t ∈ tags p ↔ t ∈ elems (opt_Tags (opts p)).

(** The same, counting occurrences in the sequence. *)
Definition occurrences (t : string) (l : list string) : nat :=
  length (filter (λ x, x = t) l).

Definition tags_once (p : basicProcess) : Prop :=
  ∀ t, (t ∈ tags p ↔ occurrences t (elems (opt_Tags (opts p))) = 1%nat) ∧
       (occurrences t (elems (opt_Tags (opts p))) ≤ 1)%nat.

(** An API call that touches the tags. *)
Inductive tag_call :=
| CallTag (t : string)
| CallResetTags.

Definition do_tag_call (p : basicProcess) (c : tag_call) : basicProcess :=
  match c with
  | CallTag t => Tag t p
  | CallResetTags => ResetTags p
  end.

Definition do_tag_calls (cs : list tag_call) (p : basicProcess) : basicProcess :=
  fold_left do_tag_call cs p.


(** ** Wait *)

(** Modelled from the spec: [ProcessTriggerSequence.Run], declared
    outside the files at hand.  Triggers are stored as an ordered
    sequence and run in registration order, each called with the
    snapshot. *)
Definition Run (s : ProcessTriggerSequence) (info : ProcessInfo) (w : effects) : effects :=
  {| delivered := delivered w;
     fired := fired w ++ map (λ t, (t, info)) s |}.

(** After its two early returns [Wait] makes the channel [sig], starts
    the background waiter and enters its select.  From there two
    goroutines run, and the OS and the owner of the context act on their
    own; the state below holds where each goroutine stands. *)

(** The background waiter. *)
Inductive waiter_pc :=
| WBlocked                 (* evaluating p.cmd.Wait(), the operand of the send *)
| WSelect (res : error)    (* in the outer select, holding the result *)
| WSent                    (* the send was chosen; p.Info(ctx) is next *)
| WRun (info : ProcessInfo) (rest : list ProcessTrigger)
                           (* inside p.triggers.Run, [rest] still to call *)
| WInner                   (* <-ctx.Done() was chosen; in the inner select *)
| WClosing (handed : bool) (* body done, the deferred close(sig) is next *)
| WExit (handed : bool)    (* goroutine finished *)
| WPanicked.               (* p.Info(ctx) panicked: the program is down *)

(** What the caller received on [sig]. *)
Inductive recv_from :=
| FromWait                 (* the result of p.cmd.Wait() *)
| FromCtxErr               (* ctx.Err(), sent by the inner select *)
| FromClosed.              (* the zero value of the closed channel *)

(** The caller of [Wait]; [CReturned None e] is the return of the
    [<-ctx.Done()] case. *)
Inductive caller_pc :=
| CStart
| CSelect
| CGot (src : recv_from) (e : error)
| CReturned (src : option recv_from) (e : error).

Record wait_state := {
  ws_proc : basicProcess;
  ws_ctx : Context;
  ws_closed : bool;
  ws_waiter : waiter_pc;
  ws_caller : caller_pc;
  ws_eff : effects;
}.

Definition wait_start (p : basicProcess) (ctx : Context) (w : effects) : wait_state :=
  {| ws_proc := p; ws_ctx := ctx; ws_closed := false;
     ws_waiter := WBlocked; ws_caller := CStart; ws_eff := w |}.

(** One step of one of the goroutines or of their environment. *)
Inductive event :=
| EvCancel (reason : err)   (* the context is cancelled or its deadline passes *)
| EvOsWait (st : option ProcessState) (res : error)
                            (* p.cmd.Wait() stores the exit status and returns *)
| EvEnterSelect             (* the caller reaches its select *)
| EvHandOff                 (* outer select: the send meets the caller's receive *)
| EvWaiterDone              (* outer select: case <-ctx.Done() *)
| EvInnerSend               (* inner select: the send of ctx.Err() meets the receive *)
| EvInnerDefault            (* inner select: default *)
| EvInfo                    (* p.Info(ctx) is evaluated *)
| EvTrigger                 (* Run calls the next trigger *)
| EvRunReturn               (* Run returns *)
| EvClose                   (* the deferred close(sig) *)
| EvCallerDone              (* caller's select: case <-ctx.Done() *)
| EvRecvClosed              (* caller's select: receive on the closed channel *)
| EvReturn.                 (* return errors.WithStack(err) *)

Definition canceled_error : error :=
  errors.New "context canceled while waiting for process to exit".

(** [c.ProcessState = state], the assignment inside [cmd.Wait()]. *)
Definition store_ProcessState (p : basicProcess) (st : option ProcessState) : basicProcess :=
  set_cmd p ((λ c, {| cmd_Process := cmd_Process c; cmd_ProcessState := st |}) <$> cmd p).

Definition set_waiter (s : wait_state) (pc : waiter_pc) : wait_state :=
  {| ws_proc := ws_proc s; ws_ctx := ws_ctx s; ws_closed := ws_closed s;
     ws_waiter := pc; ws_caller := ws_caller s; ws_eff := ws_eff s |}.

Definition set_caller (s : wait_state) (pc : caller_pc) : wait_state :=
  {| ws_proc := ws_proc s; ws_ctx := ws_ctx s; ws_closed := ws_closed s;
     ws_waiter := ws_waiter s; ws_caller := pc; ws_eff := ws_eff s |}.

Definition set_proc (s : wait_state) (p : basicProcess) : wait_state :=
  {| ws_proc := p; ws_ctx := ws_ctx s; ws_closed := ws_closed s;
     ws_waiter := ws_waiter s; ws_caller := ws_caller s; ws_eff := ws_eff s |}.

Definition set_ctx (s : wait_state) (ctx : Context) : wait_state :=
  {| ws_proc := ws_proc s; ws_ctx := ctx; ws_closed := ws_closed s;
     ws_waiter := ws_waiter s; ws_caller := ws_caller s; ws_eff := ws_eff s |}.

Definition set_eff (s : wait_state) (w : effects) : wait_state :=
  {| ws_proc := ws_proc s; ws_ctx := ws_ctx s; ws_closed := ws_closed s;
     ws_waiter := ws_waiter s; ws_caller := ws_caller s; ws_eff := w |}.

Definition set_closed (s : wait_state) : wait_state :=
  {| ws_proc := ws_proc s; ws_ctx := ws_ctx s; ws_closed := true;
     ws_waiter := ws_waiter s; ws_caller := ws_caller s; ws_eff := ws_eff s |}.

Definition in_select (c : caller_pc) : bool :=
  match c with
  | CSelect => true
  | _ => false
  end.

(** [step ev s] is the state after [ev], or [None] when [ev] cannot
    happen in [s].  A send on the unbuffered [sig] can proceed only while
    the caller is in its select; the inner select takes its default only
    when the send cannot proceed.  Nothing happens after a panic. *)
Definition step (ev : event) (s : wait_state) : option wait_state :=
  match ws_waiter s, ev with
  | WPanicked, _ => None
  | _, EvCancel reason =>
      match ctx_Err (ws_ctx s) with
      | None => Some (set_ctx s {| ctx_Err := Some reason |})
      | Some _ => None
      end
  | WBlocked, EvOsWait st res =>
      Some (set_waiter (set_proc s (store_ProcessState (ws_proc s) st)) (WSelect res))
  | _, EvEnterSelect =>
      match ws_caller s with
      | CStart => Some (set_caller s CSelect)
      | _ => None
      end
  | WSelect res, EvHandOff =>
      if in_select (ws_caller s)
      then Some (set_caller (set_waiter s WSent) (CGot FromWait res))
      else None
  | WSelect _, EvWaiterDone =>
      if ctx_Done (ws_ctx s) then Some (set_waiter s WInner) else None
  | WInner, EvInnerSend =>
      if in_select (ws_caller s)
      then Some (set_caller (set_waiter s (WClosing false))
                   (CGot FromCtxErr (ctx_Err (ws_ctx s))))
      else None
  | WInner, EvInnerDefault =>
      if in_select (ws_caller s) then None
      else Some (set_waiter s (WClosing false))
  | WSent, EvInfo =>
      match Info (ws_proc s) with
      | Ret info => Some (set_waiter s (WRun info (triggers (ws_proc s))))
      | _ => Some (set_waiter s WPanicked)
      end
  | WRun info (t :: rest), EvTrigger =>
      Some (set_waiter (set_eff s (Run [t] info (ws_eff s))) (WRun info rest))
  | WRun info [], EvRunReturn => Some (set_waiter s (WClosing true))
  | WClosing h, EvClose => Some (set_closed (set_waiter s (WExit h)))
  | _, EvCallerDone =>
      if in_select (ws_caller s) && ctx_Done (ws_ctx s)
      then Some (set_caller s (CReturned None canceled_error))
      else None
  | _, EvRecvClosed =>
      if in_select (ws_caller s) && ws_closed s
      then Some (set_caller s (CGot FromClosed None))
      else None
  | _, EvReturn =>
      match ws_caller s with
      | CGot src e => Some (set_caller s (CReturned (Some src) (errors.WithStack e)))
      | _ => None
      end
  | _, _ => None
  end.

(** A run: the events in order, each one possible where it happens. *)
Fixpoint run_events (evs : list event) (s : wait_state) : option wait_state :=
  match evs with
  | [] => Some s
  | ev :: evs => s' ← step ev s; run_events evs s'
  end.

(** A schedule played against the program: events that cannot happen
    where they stand are passed over. *)
Definition play (sched : list event) (s : wait_state) : wait_state :=
  fold_left (λ s ev, default s (step ev s)) sched s.

(** [Wait] under the schedule [sched]: the error it returns with the
    process and the effects at the end of the schedule; [Blocks] when the
    caller has not returned by then. *)
Definition Wait (sched : list event) (ctx : Context) (p : basicProcess) (w : effects)
  : outcome (error * (basicProcess * effects)) :=
  (* if p.cmd == nil || p.cmd.Process == nil { return nil }
     if p.cmd.ProcessState != nil && p.cmd.ProcessState.Exited() { return nil } *)
  match Wait_early p with
  | Some e => Ret (e, (p, w))
  | None =>
      let s := play sched (wait_start p ctx w) in
      match ws_caller s, ws_waiter s with
      | CReturned _ e, _ => Ret (e, (ws_proc s, ws_eff s))
      | _, WPanicked => Panic
      | _, _ => Blocks
      end
  end.


(** ** The Process interface *)

(** The ten operations, over any implementation with state [P].  A call
    returns its result and the state it leaves, panics, or does not
    return. *)
Class Process (P : Type) := {
  proc_ID : P → outcome (string * P);
  proc_Info : Context → P → outcome (ProcessInfo * P);
  proc_Running : Context → P → outcome (bool * P);
  proc_Complete : Context → P → outcome (bool * P);
  proc_Signal : Context → syscall_Signal → P → outcome (error * P);
  proc_Tag : string → P → outcome (unit * P);
  proc_ResetTags : P → outcome (unit * P);
  proc_GetTags : P → outcome (slice string * P);
  proc_RegisterTrigger : option ProcessTrigger → P → outcome (error * P);
  proc_Wait : Context → P → outcome (error * P);
}.

(** A call of the interface, and the type of what it returns. *)
Inductive op :=
| OpID
| OpInfo (ctx : Context)
| OpRunning (ctx : Context)
| OpComplete (ctx : Context)
| OpSignal (ctx : Context) (sig : syscall_Signal)
| OpTag (t : string)
| OpResetTags
| OpGetTags
| OpRegisterTrigger (trigger : option ProcessTrigger)
| OpWait (ctx : Context).

Definition ret (o : op) : Type :=
  match o with
  | OpID => string
  | OpInfo _ => ProcessInfo
  | OpRunning _ | OpComplete _ => bool
  | OpSignal _ _ | OpRegisterTrigger _ | OpWait _ => error
  | OpTag _ | OpResetTags => unit
  | OpGetTags => slice string
  end.

Definition returns_error (o : op) : bool :=
  match o with
  | OpSignal _ _ | OpRegisterTrigger _ | OpWait _ => true
  | _ => false
  end.

(** The error a call returned, if the operation returns one. *)
Definition error_of (o : op) : ret o → option error :=
  match o return ret o → option error with
  | OpSignal _ _ => λ e, Some e
  | OpRegisterTrigger _ => λ e, Some e
  | OpWait _ => λ e, Some e
  | _ => λ _, None
  end.

Definition invoke {P} `{Process P} (o : op) : P → outcome (ret o * P) :=
  match o return P → outcome (ret o * P) with
  | OpID => proc_ID
  | OpInfo ctx => proc_Info ctx
  | OpRunning ctx => proc_Running ctx
  | OpComplete ctx => proc_Complete ctx
  | OpSignal ctx sig => proc_Signal ctx sig
  | OpTag t => proc_Tag t
  | OpResetTags => proc_ResetTags
  | OpGetTags => proc_GetTags
  | OpRegisterTrigger trigger => proc_RegisterTrigger trigger
  | OpWait ctx => proc_Wait ctx
  end.

(** ** localProcess *)

(** [sync.RWMutex]: the number of read locks held and whether the write
    lock is held.  Acquiring a lock that is not free does not return;
    releasing a lock that is not held is a fatal error. *)
Record RWMutex := {
  readers : nat;
  writer : bool;
}.

Definition unlocked : RWMutex := {| readers := 0; writer := false |}.
Definition read_locked : RWMutex := {| readers := 1; writer := false |}.
Definition write_locked : RWMutex := {| readers := 0; writer := true |}.

Definition RLock (m : RWMutex) : outcome RWMutex :=
  if writer m then Blocks
  else Ret {| readers := S (readers m); writer := false |}.

Definition RUnlock (m : RWMutex) : outcome RWMutex :=
  match readers m with
  | O => Panic
  | S n => Ret {| readers := n; writer := writer m |}
  end.

Definition Lock (m : RWMutex) : outcome RWMutex :=
  if writer m || negb (Nat.eqb (readers m) 0) then Blocks
  else Ret {| readers := 0; writer := true |}.

Definition Unlock (m : RWMutex) : outcome RWMutex :=
  if writer m then Ret {| readers := readers m; writer := false |}
  else Panic.

Record localProcess (P : Type) := {
  proc : P;
  mutex : RWMutex;
}.
Arguments proc {P} _.
Arguments mutex {P} _.

(** The shape of every method: take the lock, defer its release, make
    the delegated call.  The deferred release runs when the call returns
    and when it panics; it does not run while the call has not returned.
    The result is what the caller gets, with the state of the mutex. *)
Definition locked {P A} (lock unlock : RWMutex → outcome RWMutex)
    (f : P → outcome (A * P)) (lp : localProcess P) : outcome (A * P) * RWMutex :=
  match lock (mutex lp) with
  | Ret m1 =>
      match f (proc lp) with
      | Blocks => (Blocks, m1)
      | r =>
          match unlock m1 with
          | Ret m2 => (r, m2)
          | _ => (Panic, m1)
          end
      end
  | _ => (Blocks, mutex lp)
  end.

(** [errors.WithStack(p.proc.X(...))] *)
Definition with_stack {P} (f : P → outcome (error * P)) (s : P) : outcome (error * P) :=
  r ← f s; Ret (errors.WithStack r.1, r.2).

Section local_methods.

Context {P : Type} `{Process P}.

Definition local_ID (lp : localProcess P) :=
  locked RLock RUnlock proc_ID lp.

Definition local_Info (ctx : Context) (lp : localProcess P) :=
  locked RLock RUnlock (proc_Info ctx) lp.

Definition local_Running (ctx : Context) (lp : localProcess P) :=
  locked RLock RUnlock (proc_Running ctx) lp.

Definition local_Complete (ctx : Context) (lp : localProcess P) :=
  locked RLock RUnlock (proc_Complete ctx) lp.

Definition local_Signal (ctx : Context) (sig : syscall_Signal) (lp : localProcess P) :=
  locked Lock Unlock (with_stack (proc_Signal ctx sig)) lp.

Definition local_Tag (t : string) (lp : localProcess P) :=
  locked Lock Unlock (proc_Tag t) lp.

Definition local_ResetTags (lp : localProcess P) :=
  locked Lock Unlock proc_ResetTags lp.

Definition local_GetTags (lp : localProcess P) :=
  locked RLock RUnlock proc_GetTags lp.

Definition local_RegisterTrigger (trigger : option ProcessTrigger) (lp : localProcess P) :=
  locked Lock Unlock (with_stack (proc_RegisterTrigger trigger)) lp.

Definition local_Wait (ctx : Context) (lp : localProcess P) :=
  locked Lock Unlock (with_stack (proc_Wait ctx)) lp.

Definition local_invoke (o : op) : localProcess P → outcome (ret o * P) * RWMutex :=
  match o return localProcess P → outcome (ret o * P) * RWMutex with
  | OpID => local_ID
  | OpInfo ctx => local_Info ctx
  | OpRunning ctx => local_Running ctx
  | OpComplete ctx => local_Complete ctx
  | OpSignal ctx sig => local_Signal ctx sig
  | OpTag t => local_Tag t
  | OpResetTags => local_ResetTags
  | OpGetTags => local_GetTags
  | OpRegisterTrigger trigger => local_RegisterTrigger trigger
  | OpWait ctx => local_Wait ctx
  end.

End local_methods.

(** The lock a method holds while its delegated call runs. *)
Definition held (o : op) : RWMutex :=
  match o with
  | OpID | OpInfo _ | OpRunning _ | OpComplete _ | OpGetTags => read_locked
  | OpSignal _ _ | OpTag _ | OpResetTags | OpRegisterTrigger _ | OpWait _ => write_locked
  end.

(** What the wrapper does to a returned value: the three operations that
    return an error pass it through [errors.WithStack]. *)
Definition annotate (o : op) : ret o → ret o :=
  match o return ret o → ret o with
  | OpSignal _ _ => errors.WithStack
  | OpRegisterTrigger _ => errors.WithStack
  | OpWait _ => errors.WithStack
  | _ => λ a, a
  end.

(** The wrapper is a [Process] again. *)
Definition as_call {P A} (r : outcome (A * P) * RWMutex) : outcome (A * localProcess P) :=
  match r with
  | (Ret (a, s), m) => Ret (a, {| proc := s; mutex := m |})
  | (Panic, _) => Panic
  | (Blocks, _) => Blocks
  end.

#[global] Instance localProcess_Process {P} `{Process P} : Process (localProcess P) := {|
  proc_ID := λ lp, as_call (local_ID lp);
  proc_Info := λ ctx lp, as_call (local_Info ctx lp);
  proc_Running := λ ctx lp, as_call (local_Running ctx lp);
  proc_Complete := λ ctx lp, as_call (local_Complete ctx lp);
  proc_Signal := λ ctx sig lp, as_call (local_Signal ctx sig lp);
  proc_Tag := λ t lp, as_call (local_Tag t lp);
  proc_ResetTags := λ lp, as_call (local_ResetTags lp);
  proc_GetTags := λ lp, as_call (local_GetTags lp);
  proc_RegisterTrigger := λ trigger lp, as_call (local_RegisterTrigger trigger lp);
  proc_Wait := λ ctx lp, as_call (local_Wait ctx lp);
|}.

(** ** basicProcess as a Process *)

(** What the world around a basic process answers: the OS to a signal,
    the runtime when it ranges over the tag set, and the scheduler while
    [Wait] runs. *)
Record environment := {
  env_signal : error;
  env_order : gset string → list string;
  env_sched : list event;
}.

Record basic_sys := {
  sys_proc : basicProcess;
  sys_eff : effects;
  sys_env : environment;
}.

Definition sys_update (s : basic_sys) (p : basicProcess) (w : effects) : basic_sys :=
  {| sys_proc := p; sys_eff := w; sys_env := sys_env s |}.

#[global] Instance basicProcess_Process : Process basic_sys := {|
  proc_ID := λ s, Ret (ID (sys_proc s), s);
  proc_Info := λ _ s, i ← Info (sys_proc s); Ret (i, s);
  proc_Running := λ _ s, b ← Running (sys_proc s); Ret (b, s);
  proc_Complete := λ _ s, b ← Complete (sys_proc s); Ret (b, s);
  proc_Signal := λ _ sig s,
    r ← Signal (env_signal (sys_env s)) sig (sys_proc s) (sys_eff s);
    Ret (r.1, sys_update s (sys_proc s) r.2);
  proc_Tag := λ t s, Ret (tt, sys_update s (Tag t (sys_proc s)) (sys_eff s));
  proc_ResetTags := λ s, Ret (tt, sys_update s (ResetTags (sys_proc s)) (sys_eff s));
  proc_GetTags := λ s,
    Ret (GetTags (env_order (sys_env s) (tags (sys_proc s))) (sys_proc s), s);
  proc_RegisterTrigger := λ trigger s,
    r ← RegisterTrigger trigger (sys_proc s);
    Ret (r.1, sys_update s r.2 (sys_eff s));
  proc_Wait := λ ctx s,
    r ← Wait (env_sched (sys_env s)) ctx (sys_proc s) (sys_eff s);
    Ret (r.1, sys_update s r.2.1 r.2.2);
|}.

(** ** What holds along every run of Wait *)

(** The calls [Run] makes for the triggers [ts]. *)
Definition calls (info : ProcessInfo) (ts : list ProcessTrigger)
  : list (ProcessTrigger * ProcessInfo) :=
  map (λ t, (t, info)) ts.

(** The waiter's send of the wait result was received. *)
Definition handed_off (w : waiter_pc) : bool :=
  match w with
  | WSent | WRun _ _ | WClosing true | WExit true | WPanicked => true
  | _ => false
  end.

(** The caller took the wait result off the channel: the natural-exit
    outcome of [Wait]. *)
Definition natural_exit (c : caller_pc) : bool :=
  match c with
  | CGot FromWait _ | CReturned (Some FromWait) _ => true
  | _ => false
  end.


Definition fired_inv (p0 : basicProcess) (w0 : effects) (s : wait_state) : Prop :=
  match ws_waiter s with
  | WRun info rest =>
      Info (ws_proc s) = Ret info ∧
      ∃ called, triggers p0 = called ++ rest ∧
                fired (ws_eff s) = fired w0 ++ calls info called
  | WClosing true | WExit true =>
      ∃ info, Info (ws_proc s) = Ret info ∧
              fired (ws_eff s) = fired w0 ++ calls info (triggers p0)
  | WPanicked =>
      (∀ info, Info (ws_proc s) ≠ Ret info) ∧ fired (ws_eff s) = fired w0
  | _ => fired (ws_eff s) = fired w0
  end.

Definition caller_inv (s : wait_state) : Prop :=
  match ws_caller s with
  | CStart | CSelect => True
  | CGot FromWait _ | CReturned (Some FromWait) _ =>
      handed_off (ws_waiter s) = true
  | CGot FromCtxErr e | CReturned (Some FromCtxErr) e =>
      is_Some e ∧ ctx_Done (ws_ctx s) = true ∧ ws_waiter s ≠ WBlocked
  | CGot FromClosed e | CReturned (Some FromClosed) e =>
      e = None ∧ ws_waiter s ≠ WBlocked
  | CReturned None e =>
      e = canceled_error ∧ ctx_Done (ws_ctx s) = true
  end.

Record wait_inv (p0 : basicProcess) (w0 : effects) (s : wait_state) : Prop := {
  inv_triggers : triggers (ws_proc s) = triggers p0;
  inv_handle : cmd_Process <$> cmd (ws_proc s) = cmd_Process <$> cmd p0;
  inv_delivered : delivered (ws_eff s) = delivered w0;
  inv_fired : fired_inv p0 w0 s;
  inv_caller : caller_inv s;
  inv_closed : ws_closed s = true → ∃ h, ws_waiter s = WExit h;
  inv_inner : ws_waiter s = WInner → ctx_Done (ws_ctx s) = true;
  inv_stack : ∀ src e, ws_caller s = CReturned (Some src) e →
                       ∃ e0, e = errors.WithStack e0;
}.

(** The waiter's remaining steps once the send was received. *)
Definition finish (w : waiter_pc) (ts : list ProcessTrigger) : list event :=
  match w with
  | WSent => EvInfo :: replicate (length ts) EvTrigger ++ [EvRunReturn; EvClose]
  | WRun _ rest => replicate (length rest) EvTrigger ++ [EvRunReturn; EvClose]
  | WClosing _ => [EvClose]
  | _ => []
  end.




(** ** Sample processes *)

Definition sample_opts (ts : slice string) : CreateOptions :=
  {| opt_Args := ["sleep"; "2"]; opt_Tags := ts; opt_started := false |}.

Definition fresh_cmd : Cmd := {| cmd_Process := None; cmd_ProcessState := None |}.

(** A child that was started with pid 4242 and has not been waited for. *)
Definition running_proc : basicProcess :=
  {| id := "p1"; hostname := "host"; opts := sample_opts NilSlice;
     cmd := Some {| cmd_Process := Some {| Pid := 4242 |};
                    cmd_ProcessState := None |};
     tags := ∅; triggers := [] |}.

(** The same child after [cmd.Wait()] has stored a normal exit with
    status 0: the OS handle keeps its pid. *)
Definition exited_proc : basicProcess :=
  set_cmd running_proc
    (Some {| cmd_Process := Some {| Pid := 4242 |};
             cmd_ProcessState := Some {| ps_Exited := true; ps_Success := true |} |}).

(** A process built for an executable that does not exist. *)
Definition failed_start_proc : option basicProcess :=
  (newBasicProcess (inr fresh_cmd) None "p2" "host" (sample_opts NilSlice)).1.1.

(** The process that [newBasicProcess] builds from options tagged ["a"]:
    its sequence holds "a" twice. *)
Definition tagged_proc : basicProcess :=
  default running_proc
    (newBasicProcess (inr fresh_cmd) (Some 4242) "p1" "host"
       (sample_opts (Slice ["a"]))).1.1.


(** The running child with three triggers in its sequence. *)
Definition abc_proc : basicProcess := set_triggers running_proc ["A"; "B"; "C"].

Definition background : Context := {| ctx_Err := None |}.

Definition exit_ok : option ProcessState :=
  Some {| ps_Exited := true; ps_Success := true |}.

(** The child exits, the caller receives the wait result and returns. *)
Definition natural_exit_trace : list event :=
  [EvEnterSelect; EvOsWait exit_ok None; EvHandOff; EvReturn].

(** The deadline passes while the child still runs. *)
Definition deadline_trace : list event :=
  [EvEnterSelect; EvCancel CtxDeadlineExceeded; EvCallerDone].

Definition sample_env : environment :=
  {| env_signal := None;
     env_order := elements;
     env_sched := natural_exit_trace ++ finish WSent ["A"; "B"; "C"] |}.

Definition sample_sys (p : basicProcess) : basic_sys :=
  {| sys_proc := p; sys_eff := no_effects; sys_env := sample_env |}.

(** [abc_proc] after a normal exit with status 0. *)
Definition exited_proc_abc : basicProcess := store_ProcessState abc_proc exit_ok.

(** The state at the end of the run in which the child exits, the caller
    returns and the waiter calls the three triggers and finishes. *)
Definition abc_final : wait_state :=
  Eval vm_compute in
    default (wait_start abc_proc background no_effects)
      (run_events (natural_exit_trace ++ finish WSent ["A"; "B"; "C"])
         (wait_start abc_proc background no_effects)).


Definition exit_failed : option ProcessState :=
  Some {| ps_Exited := true; ps_Success := false |}.


(** ** More sample processes *)

(** The child after [cmd.Wait()] has stored the status of a death by
    signal: [Exited()] is false. *)
Definition killed_proc : basicProcess :=
  set_cmd running_proc
    (Some {| cmd_Process := Some {| Pid := 4242 |};
             cmd_ProcessState := Some {| ps_Exited := false; ps_Success := false |} |}).

(** A process whose OS handle was released: its pid is -1 and no exit
    status was stored. *)
Definition released_proc : basicProcess :=
  set_cmd running_proc
    (Some {| cmd_Process := Some {| Pid := -1 |}; cmd_ProcessState := None |}).

(** The process [newBasicProcess] builds from options without tags when
    the OS starts the command with pid 4242. *)
Definition built_proc : basicProcess :=
  default running_proc
    (newBasicProcess (inr fresh_cmd) (Some 4242) "p1" "host"
       (sample_opts NilSlice)).1.1.

(** ** More of what holds along every run of Wait *)

(** The caller took the zero value off the closed channel. *)
Definition from_closed (c : caller_pc) : bool :=
  match c with
  | CGot FromClosed _ | CReturned (Some FromClosed) _ => true
  | _ => false
  end.

(** The waiter went through the [<-ctx.Done()] case of its select. *)
Definition gave_up (w : waiter_pc) : bool :=
  match w with
  | WInner | WClosing false | WExit false => true
  | _ => false
  end.

Record channel_inv (s : wait_state) : Prop := {
  ch_recv_closed : from_closed (ws_caller s) = true →
                   ws_closed s = true ∧ ctx_Done (ws_ctx s) = true;
  ch_gave_up : gave_up (ws_waiter s) = true → ctx_Done (ws_ctx s) = true;
  ch_handed : handed_off (ws_waiter s) = true → natural_exit (ws_caller s) = true;
  ch_natural : natural_exit (ws_caller s) = true → handed_off (ws_waiter s) = true;
  ch_exit : ∀ h, ws_waiter s = WExit h → ws_closed s = true;
}.

(** The results of [p.cmd.Wait()] in a list of events. *)
Definition os_wait_results (evs : list event) : list error :=
  omap (λ ev, match ev with EvOsWait _ res => Some res | _ => None end) evs.

(** What a run has recorded of the result of [p.cmd.Wait()]: nothing
    while the waiter is blocked in it; afterwards one result, the one the
    waiter holds, the caller received, or the caller returned. *)
Definition result_inv (evs : list event) (s : wait_state) : Prop :=
  match ws_waiter s with
  | WBlocked => os_wait_results evs = []
  | _ =>
      ∃ res, os_wait_results evs = [res] ∧
             (∀ r, ws_waiter s = WSelect r → r = res) ∧
             (∀ r, ws_caller s = CGot FromWait r → r = res) ∧
             (∀ e, ws_caller s = CReturned (Some FromWait) e →
                   e = errors.WithStack res)
  end.

(** The steps of the background waiter. *)
Definition waiter_event (ev : event) : bool :=
  match ev with
  | EvOsWait _ _ | EvHandOff | EvWaiterDone | EvInnerSend | EvInnerDefault
  | EvInfo | EvTrigger | EvRunReturn | EvClose => true
  | _ => false
  end.

(** The background waiter is gone: it returned, or its panic took the
    program down. *)
Definition waiter_ended (s : wait_state) : Prop :=
  (∃ h, ws_waiter s = WExit h) ∨ ws_waiter s = WPanicked.

(** * Package options: the cached logger (logging.go) *)

Module options.

Local Unset Elimination Schemes.

(** Errors: those the package makes with [errors.New], [errors.Wrap] and
    [errors.WithStack], those it gets from a library (a sender's [Close],
    a parser), and what a grip catcher resolves to. *)
Inductive oerr : Type :=
| ENew (msg : string)
| EFormat (fmt : string) (arg : string)
| EWrap (cause : oerr) (msg : string)
| EStack (cause : oerr)
| EExternal (code : Z)
| EMany (es : list oerr).

Local Set Elimination Schemes.

Definition oerror := option oerr.

Definition WithStack (e : oerror) : oerror := EStack <$> e.
Definition Wrap (e : oerror) (msg : string) : oerror := (λ c, EWrap c msg) <$> e.

(** A grip catcher: the errors added so far, oldest first.  [Resolve] is
    nil when none was added. *)
Definition catcher := list oerr.

Definition Check (c : catcher) (res : oerror) : catcher :=
  match res with
  | Some e => c ++ [e]
  | None => c
  end.

Definition NewWhen (c : catcher) (cond : bool) (msg : string) : catcher :=
  if cond then c ++ [ENew msg] else c.

Definition Errorf (c : catcher) (fmt arg : string) : catcher :=
  c ++ [EFormat fmt arg].

Definition Resolve (c : catcher) : oerror :=
  match c with
  | [] => None
  | _ => Some (EMany c)
  end.

(** A [send.Sender], by identity; a nil interface is [None]. *)
Definition Sender := nat.

Record CachedLogger := {
  cl_ID : string;
  cl_Manager : string;
  cl_Error : option Sender;
  cl_Output : option Sender;
}.

Definition getSender (preferError : bool) (cl : CachedLogger) : option Sender * oerror :=
  if preferError && bool_decide (cl_Error cl ≠ None) then (cl_Error cl, None)
  else if bool_decide (cl_Output cl ≠ None) then (cl_Output cl, None)
  else if bool_decide (cl_Error cl ≠ None) then (cl_Error cl, None)
  else (None, Some (ENew "no output configured")).

(** [Close]: [close_res] is what each sender's [Close] returns; the
    senders closed are added to [closed], in order. *)
Definition Close (close_res : Sender → oerror) (cl : CachedLogger)
    (closed : list Sender) : oerror * list Sender :=
  let '(c1, closed1) :=
    match cl_Output cl with
    | Some o => (Check [] (close_res o), closed ++ [o])
    | None => ([], closed)
    end in
  let '(c2, closed2) :=
    match cl_Error cl with
    | Some e =>
        if bool_decide (cl_Output cl ≠ Some e)
        then (Check c1 (close_res e), closed1 ++ [e])
        else (c1, closed1)
    | None => (c1, closed1)
    end in
  (Resolve c2, closed2).

Definition Priority := Z.

Definition LoggingPayloadFormatBSON : string := "bson".
Definition LoggingPayloadFormatJSON : string := "json".
Definition LoggingPayloadFormatSTRING : string := "string".

Section payload.

(** [message.Fields]; the package hands it on and never looks inside. *)
Context {F : Type}.

Local Unset Elimination Schemes.

(** A value of type [interface{}], by the dynamic types the package
    switches on; [VOther] is any other type. *)
Inductive value : Type :=
| VNil
| VString (s : string)
| VBytes (b : string)
| VStrings (l : list string)
| VByteSlices (l : list string)
| VFields (f : F)
| VFieldsList (l : list F)
| VList (l : list value)
| VOther (tag : string).

(** The composers of grip's message package that the package builds. *)
Inductive Composer : Type :=
| NewFields (p : Priority) (f : F)
| NewSimpleFields (p : Priority) (f : F)
| NewBytesMessage (p : Priority) (data : string)
| NewSimpleBytesMessage (p : Priority) (data : string)
| NewGroupComposer (batch : list Composer)
| NewLineMessage (p : Priority) (args : list value)
| ConvertToComposer (p : Priority) (v : value).

Local Set Elimination Schemes.

Record LoggingPayload := {
  LoggerID : string;
  Data : value;
  lp_Priority : Priority;
  IsMulti : bool;
  PreferSendToError : bool;
  AddMetadata : bool;
  Format : string;
}.

Definition Validate (lp : LoggingPayload) : oerror :=
  let c := NewWhen [] (match Data lp with VNil => true | _ => false end)
             "data cannot be empty" in
  let c :=
    if bool_decide (Format lp = "") || bool_decide (Format lp = LoggingPayloadFormatBSON)
       || bool_decide (Format lp = LoggingPayloadFormatJSON)
       || bool_decide (Format lp = LoggingPayloadFormatSTRING)
    then c
    else Errorf c "invalid payload format '%s'" (Format lp) in
  Resolve c.

(** One read of the BSON document reader: it fails, or it yields a
    document, of which [MarshalBSON] gives the bytes or an error. *)
Inductive read_step :=
| ReadFails (e : oerr)
| Document (marshalled : oerr + string).

(** The parsers the package calls: [json.Unmarshal] into fields, the BSON
    unmarshaler of the global logger registry (nil when none is
    registered), and the reads the BSON document reader makes on a buffer
    before it reports the end of the input. *)
Record codecs := {
  json_Unmarshal : string → oerr + F;
  bson_Unmarshaler : option (string → oerr + F);
  bson_reads : string → list read_step;
}.

(** [strings.Split(s, sep)] and [bytes.Split(s, sep)] for a separator of
    one byte: the pieces between the separators, one more than there
    are separators. *)
Fixpoint split_on (sep : Ascii.ascii) (s : string) : list string :=
  match s with
  | EmptyString => [EmptyString]
  | String c r =>
      if Ascii.eqb c sep then EmptyString :: split_on sep r
      else match split_on sep r with
           | h :: t => String c h :: t
           | [] => [String c EmptyString]
           end
  end.

Definition newline : Ascii.ascii := Ascii.ascii_of_nat 10.
Definition zero_byte : Ascii.ascii := Ascii.ascii_of_nat 0.

(** The pieces put together again, with the separator between them. *)
Fixpoint join_with (sep : Ascii.ascii) (pieces : list string) : string :=
  match pieces with
  | [] => EmptyString
  | [p] => p
  | p :: rest => String.append p (String sep (join_with sep rest))
  end.

Fixpoint count_byte (sep : Ascii.ascii) (s : string) : nat :=
  match s with
  | EmptyString => 0
  | String c r => (if Ascii.eqb c sep then 1 else 0) + count_byte sep r
  end.

(** The message [produceMessage] makes of bytes it does not parse. *)
Definition bytes_message (lp : LoggingPayload) (data : string) : Composer :=
  if AddMetadata lp then NewBytesMessage (lp_Priority lp) data
  else NewSimpleBytesMessage (lp_Priority lp) data.

Definition fields_message (lp : LoggingPayload) (f : F) : Composer :=
  if AddMetadata lp then NewFields (lp_Priority lp) f
  else NewSimpleFields (lp_Priority lp) f.

Definition produceMessage (cd : codecs) (lp : LoggingPayload) (data : string)
  : oerr + Composer :=
  if bool_decide (Format lp = LoggingPayloadFormatJSON) then
    match json_Unmarshal cd data with
    | inl e => inl (EWrap e "problem parsing json from message body")
    | inr payload => inr (fields_message lp payload)
    end
  else if bool_decide (Format lp = LoggingPayloadFormatBSON) then
    match bson_Unmarshaler cd with
    | None => inl (ENew "no suitable unmarshaller provided")
    | Some unmarshal =>
        match unmarshal data with
        | inl e => inl (EWrap e "problem parsing bson from message body")
        | inr payload => inr (fields_message lp payload)
        end
    end
  else if AddMetadata lp then inr (NewBytesMessage (lp_Priority lp) data)
  else inr (NewSimpleBytesMessage (lp_Priority lp) data).

(** The loop of [splitByteSlice] over the reads of the document reader. *)
Fixpoint read_documents (reads : list read_step) (out : list string)
  : oerr + list string :=
  match reads with
  | [] => inr out
  | ReadFails e :: _ => inl (EWrap e "problem reading bson from message data")
  | Document (inl e) :: _ => inl (EWrap e "problem constructing bson form")
  | Document (inr payload) :: reads => read_documents reads (out ++ [payload])
  end.

Definition splitByteSlice (cd : codecs) (lp : LoggingPayload) (data : string)
  : oerr + value :=
  if bool_decide (Format lp ≠ LoggingPayloadFormatBSON)
  then inr (VByteSlices (split_on zero_byte data))
  else match read_documents (bson_reads cd data) [] with
       | inl e => inl e
       | inr out => inr (VByteSlices out)
       end.

Definition byteSlicesToStringSlice (l : list string) : list string :=
  map (λ b, b) l.

Definition convertMessage (cd : codecs) (lp : LoggingPayload) (v : value)
  : oerr + Composer :=
  match v with
  | VString data => produceMessage cd lp data
  | VBytes data => produceMessage cd lp data
  | VStrings data => inr (ConvertToComposer (lp_Priority lp) (VStrings data))
  | VByteSlices data =>
      inr (NewLineMessage (lp_Priority lp) [VStrings (byteSlicesToStringSlice data)])
  | VFields data => inr (fields_message lp data)
  | VFieldsList data => inr (NewGroupComposer (map (fields_message lp) data))
  | VList data => inr (NewLineMessage (lp_Priority lp) data)
  | _ => inr (ConvertToComposer (lp_Priority lp) v)
  end.

(** The batch loops of [convertMultiMessage]: each element is converted
    in turn, and the first error ends the loop. *)
Fixpoint batch_of {A} (f : A → oerr + Composer) (l : list A) (batch : list Composer)
  : oerr + Composer :=
  match l with
  | [] => inr (NewGroupComposer batch)
  | x :: l =>
      match f x with
      | inl e => inl (EStack e)
      | inr elem => batch_of f l (batch ++ [elem])
      end
  end.

(** The cases of [convertMultiMessage] that do not call it again. *)
Definition convertMultiMessage_slices (cd : codecs) (lp : LoggingPayload) (v : value)
  : oerr + Composer :=
  match v with
  | VStrings data => batch_of (produceMessage cd lp) data []
  | VByteSlices data => batch_of (produceMessage cd lp) data []
  | VList data => batch_of (convertMessage cd lp) data []
  | _ => inr (ConvertToComposer (lp_Priority lp) v)
  end.

(** [convertMultiMessage]: a string is split at the newlines and a byte
    slice by [splitByteSlice]; the call it then makes on the result
    lands in the []string or [][]byte case. *)
Definition convertMultiMessage (cd : codecs) (lp : LoggingPayload) (v : value)
  : oerr + Composer :=
  match v with
  | VString data => convertMultiMessage_slices cd lp (VStrings (split_on newline data))
  | VBytes data =>
      match splitByteSlice cd lp data with
      | inl e => inl (EStack e)
      | inr payload => convertMultiMessage_slices cd lp payload
      end
  | _ => convertMultiMessage_slices cd lp v
  end.

Definition convert (cd : codecs) (lp : LoggingPayload) : oerr + Composer :=
  if IsMulti lp then convertMultiMessage cd lp (Data lp)
  else convertMessage cd lp (Data lp).


End payload.

Arguments value : clear implicits.
Arguments Composer : clear implicits.
Arguments LoggingPayload : clear implicits.
Arguments codecs : clear implicits.

End options.

(** ** Sample payloads *)

(** Parsers for the samples: fields are kept as their source text, "{}"
    is the one JSON document that parses, and no BSON unmarshaler is
    registered. *)
Definition sample_codecs : options.codecs string :=
  {| options.json_Unmarshal :=
       λ s, if String.eqb s "{}" then inr s else inl (options.EExternal 1);
     options.bson_Unmarshaler := None;
     options.bson_reads := λ _, [] |}.

Definition two_lines : string := String.append "a" (String options.newline "b").

Definition text_payload : options.LoggingPayload string :=
  {| options.LoggerID := "logger"; options.Data := options.VString two_lines;
     options.lp_Priority := 40; options.IsMulti := true;
     options.PreferSendToError := false; options.AddMetadata := false;
     options.Format := "string" |}.

Definition json_payload : options.LoggingPayload string :=
  {| options.LoggerID := "logger";
     options.Data := options.VStrings ["{}"; "{}"];
     options.lp_Priority := 40; options.IsMulti := true;
     options.PreferSendToError := false; options.AddMetadata := true;
     options.Format := "json" |}.

Definition bson_payload : options.LoggingPayload string :=
  {| options.LoggerID := "logger"; options.Data := options.VString two_lines;
     options.lp_Priority := 40; options.IsMulti := true;
     options.PreferSendToError := false; options.AddMetadata := false;
     options.Format := "bson" |}.

(** * Properties *)

(** ** Tags *)

Section tags.

Implicit Types (p : basicProcess) (t : string).

Lemma Tag_present p t : t ∈ tags p → Tag t p = p.
Proof. intros Hin. unfold Tag. by rewrite bool_decide_eq_true_2. Qed.

Lemma Tag_member p t : t ∈ tags (Tag t p).
Proof.
  unfold Tag. case_bool_decide as Hin; [done|].
  simpl. set_solver.
Qed.

Lemma Tag_absent p t :
  t ∉ tags p →
  tags (Tag t p) = {[t]} ∪ tags p ∧
  opt_Tags (opts (Tag t p)) = Slice (elems (opt_Tags (opts p)) ++ [t]).
Proof. intros Hout. unfold Tag. by rewrite bool_decide_eq_false_2. Qed.

Lemma Tag_preserves_consistent p t :
  tags_consistent p → tags_consistent (Tag t p).
Proof.
  intros [Hnd Hiff]. destruct (decide (t ∈ tags p)) as [Hin|Hout].
  - by rewrite Tag_present.
  - destruct (Tag_absent p t Hout) as [Htags Hseq].
    unfold tags_consistent. rewrite Htags, Hseq. simpl. split.
    + apply NoDup_app. split_and!; [done| |apply NoDup_singleton].
      intros x Hx ->%list_elem_of_singleton. by apply Hout, Hiff.
    + intros x. rewrite elem_of_app, list_elem_of_singleton, <- Hiff.
      rewrite elem_of_union, elem_of_singleton. tauto.
Qed.

Lemma ResetTags_consistent p : tags_consistent (ResetTags p).
Proof.
  split; simpl; [apply NoDup_nil_2|].
  intros t. set_solver.
Qed.

(** Counting occurrences says the same as [tags_consistent]. *)
Lemma occurrences_zero t (l : list string) : t ∉ l → occurrences t l = 0%nat.
Proof.
  unfold occurrences. induction l as [|x l IH]; [done|].
  intros Hnot. rewrite filter_cons. case_decide as Hx.
  - subst. exfalso. apply Hnot. left.
  - apply IH. intros Hin. apply Hnot. by right.
Qed.

Lemma occurrences_NoDup t (l : list string) :
  NoDup l → occurrences t l = if bool_decide (t ∈ l) then 1%nat else 0%nat.
Proof.
  induction 1 as [|x l Hx Hnd IH]; [done|].
  unfold occurrences in *. rewrite filter_cons.
  destruct (decide (x = t)) as [->|Hxt].
  - rewrite bool_decide_eq_true_2 by left. simpl.
    f_equal. by apply occurrences_zero.
  - assert (t ∈ x :: l ↔ t ∈ l) as Heq
      by (rewrite elem_of_cons; split; [intros [->|?]; done | by right]).
    by rewrite IH, (bool_decide_ext _ _ Heq).
Qed.

Lemma tags_consistent_once p : tags_consistent p → tags_once p.
Proof.
  intros [Hnd Hiff] t. rewrite (occurrences_NoDup _ _ Hnd), Hiff.
  case_bool_decide as Hin; (split; [split|lia]); [done|done|done|lia].
Qed.

Lemma do_tag_calls_consistent cs p :
  tags_consistent p → tags_consistent (do_tag_calls cs p).
Proof.
  unfold do_tag_calls. revert p.
  induction cs as [|c cs IH]; intros p Hp; [done|].
  simpl. apply IH. destruct c; simpl.
  - by apply Tag_preserves_consistent.
  - apply ResetTags_consistent.
Qed.

End tags.

(** ** Construction *)

Section construction.

Implicit Types (p : basicProcess) (t : string).

Lemma Tag_cmd p t : cmd (Tag t p) = cmd p.
Proof. unfold Tag. by case_bool_decide. Qed.

Lemma Tag_triggers p t : triggers (Tag t p) = triggers p.
Proof. unfold Tag. by case_bool_decide. Qed.

Lemma fold_Tag_cmd (l : list string) p :
  cmd (fold_left (λ p t, Tag t p) l p) = cmd p.
Proof.
  revert p. induction l as [|t l IH]; intros p; [done|].
  simpl. by rewrite IH, Tag_cmd.
Qed.

(** Replaying a list of tags appends some of them to the sequence and
    puts all of them into the set. *)
Lemma fold_Tag_appends (l : list string) p :
  let q := fold_left (λ p t, Tag t p) l p in
  ∃ extra,
    elems (opt_Tags (opts q)) = elems (opt_Tags (opts p)) ++ extra ∧
    (∀ t, t ∈ tags q ↔ t ∈ tags p ∨ t ∈ extra) ∧
    (∀ t, t ∈ l → t ∈ tags q).
Proof.
  revert p. induction l as [|x l IH]; intros p; simpl.
  - exists []. rewrite app_nil_r. split_and!; [done| |].
    + intros t. rewrite elem_of_nil. tauto.
    + intros t Hin. by apply elem_of_nil in Hin.
  - destruct (IH (Tag x p)) as (extra & Hseq & Hset & Hall).
    destruct (decide (x ∈ tags p)) as [Hin|Hout].
    + rewrite Tag_present in * by done.
      exists extra. split_and!; [done..|].
      intros t [->|Ht]%elem_of_cons; [|by apply Hall].
      apply Hset. by left.
    + destruct (Tag_absent p x Hout) as [Htags Hopt].
      rewrite Hopt in Hseq. simpl in Hseq. rewrite <- app_assoc in Hseq.
      exists ([x] ++ extra). split_and!; [done| |].
      * intros t. rewrite Hset, Htags, elem_of_union, elem_of_singleton.
        rewrite elem_of_app, list_elem_of_singleton. tauto.
      * intros t [->|Ht]%elem_of_cons; [|by apply Hall].
        apply Hset. left. apply Tag_member.
Qed.

End construction.

(** ** Properties of the basic process *)

(** C1 (fails on the code). A process whose exit status has been stored
    by the wait call and whose OS handle still carries its pid is reported
    complete and, at the same time, running: [Running] has no branch for
    an exit status that says the child has exited. *)
Theorem Running_true_after_exit (p : basicProcess) c pr st :
  cmd p = Some c →
  cmd_Process c = Some pr →
  cmd_ProcessState c = Some st →
  ps_Exited st = true →
  0 ≤ Pid pr →
  Complete p = Ret true ∧ Running p = Ret true.
Proof.
  intros Hc Hpr Hst Hex Hpid.
  unfold Complete, Running, state_exited, state_not_exited.
  rewrite Hc, Hpr, Hst, Hex. simpl. split; [done|].
  destruct (Z.ltb_spec (Pid pr) 0); [lia|done].
Qed.

Lemma Running_true_after_exit_witness :
  Complete exited_proc = Ret true ∧ Running exited_proc = Ret true.
Proof.
  apply (Running_true_after_exit exited_proc
           {| cmd_Process := Some {| Pid := 4242 |};
              cmd_ProcessState := Some {| ps_Exited := true; ps_Success := true |} |}
           {| Pid := 4242 |}
           {| ps_Exited := true; ps_Success := true |});
    [reflexivity | reflexivity | reflexivity | reflexivity | simpl; lia].
Defined.

(** C2 (fails on the code). The guard of [RegisterTrigger] holds for
    every process that has a command, and dereferences a nil command
    otherwise: no call registers a trigger, and a running process with a
    non-nil trigger gets the "complete" error. *)
Theorem RegisterTrigger_always_rejects :
  (∀ trigger p,
     RegisterTrigger trigger p =
       if bool_decide (cmd p ≠ None)
       then Ret (errors.New "cannot register trigger for complete project", p)
       else Panic) ∧
  Complete running_proc = Ret false ∧
  RegisterTrigger (Some "A") running_proc =
    Ret (Some (Fundamental "cannot register trigger for complete project"),
         running_proc).
Proof.
  split; [|split; reflexivity].
  intros trigger p. unfold RegisterTrigger.
  case_bool_decide as Hc; [done|].
  destruct (cmd p) as [c|]; [discriminate|done].
Qed.

(** C3 (fails on the code). When the OS refuses to start the command,
    construction still returns a process; [Running] is false and [Wait]
    returns nil at once, but [Complete] dereferences the nil OS handle. *)
Theorem Complete_panics_after_failed_start c uuid host o :
  cmd_Process c = None →
  cmd_ProcessState c = None →
  ∃ p, newBasicProcess (inr c) None uuid host o
         = (Some p, None, set_opts_started o true) ∧
       Complete p = Panic ∧
       Running p = Ret false ∧
       ∀ sched ctx w, Wait sched ctx p w = Ret (None, (p, w)).
Proof.
  intros Hpr Hst. eexists. split; [reflexivity|].
  unfold Complete, Running, Wait, Wait_early.
  rewrite fold_Tag_cmd. simpl.
  unfold state_exited, cmd_Pid. by rewrite Hpr, Hst.
Qed.

Lemma Complete_panics_after_failed_start_witness :
  ∃ p, newBasicProcess (inr fresh_cmd) None "p2" "host" (sample_opts NilSlice)
         = (Some p, None, set_opts_started (sample_opts NilSlice) true) ∧
       Complete p = Panic ∧
       Running p = Ret false ∧
       ∀ sched ctx w, Wait sched ctx p w = Ret (None, (p, w)).
Proof.
  apply (Complete_panics_after_failed_start fresh_cmd "p2" "host"
           (sample_opts NilSlice)); reflexivity.
Defined.

(** C4 (fails on the code). The constructor copies the options, tag
    sequence included, and then replays every tag of that sequence
    through [Tag]: each tag the options carried is then in the set and at
    least twice in the sequence. *)
Theorem newBasicProcess_duplicates_tags c os_pid uuid host o :
  elems (opt_Tags o) ≠ [] →
  ∃ p, (newBasicProcess (inr c) os_pid uuid host o).1.1 = Some p ∧
       ¬ tags_once p ∧
       ¬ tags_consistent p ∧
       ∀ t, t ∈ elems (opt_Tags o) →
            t ∈ tags p ∧ (2 ≤ occurrences t (elems (opt_Tags (opts p))))%nat.
Proof.
  intros Hne. eexists. split; [reflexivity|].
  match goal with |- context [fold_left ?f ?l ?p0] =>
    destruct (fold_Tag_appends l p0) as (extra & Hseq & Hset & Hall);
    set (q := fold_left f l p0) in * end.
  simpl in Hseq, Hset, Hall.
  assert (Htwice : ∀ t, t ∈ elems (opt_Tags o) →
            t ∈ tags q ∧ (2 ≤ occurrences t (elems (opt_Tags (opts q))))%nat).
  { intros t Ht. split; [by apply Hall|].
    assert (t ∈ extra) as Hex.
    { destruct (proj1 (Hset t) (Hall t Ht)) as [H0|]; [|done].
      by apply not_elem_of_empty in H0. }
    rewrite Hseq. unfold occurrences. rewrite filter_app, length_app.
    assert (∀ l : list string, t ∈ l → (1 ≤ length (filter (λ x, x = t) l))%nat)
      as Hpos.
    { intros l Hl. destruct (filter (λ x, x = t) l) eqn:Hf; [|simpl; lia].
      assert (t ∈ filter (λ x, x = t) l) as Hin by (by apply list_elem_of_filter).
      rewrite Hf in Hin. by apply elem_of_nil in Hin. }
    specialize (Hpos _ Ht) as H1. specialize (Hpos _ Hex) as H2. lia. }
  assert (¬ tags_once q) as Hnot.
  { intros Honce. destruct (elems (opt_Tags o)) as [|t ts] eqn:Hts; [done|].
    destruct (Htwice t) as [_ Hocc]; [left|].
    destruct (Honce t) as [_ Hle]. lia. }
  split_and!; [done| |done].
  intros Hcons. by apply Hnot, tags_consistent_once.
Qed.

Lemma newBasicProcess_duplicates_tags_witness :
  ∃ p, (newBasicProcess (inr fresh_cmd) (Some 4242) "p1" "host"
          (sample_opts (Slice ["a"]))).1.1 = Some p ∧
       ¬ tags_once p ∧
       ¬ tags_consistent p ∧
       ∀ t, t ∈ ["a"] →
            t ∈ tags p ∧ (2 ≤ occurrences t (elems (opt_Tags (opts p))))%nat.
Proof.
  apply (newBasicProcess_duplicates_tags fresh_cmd (Some 4242) "p1" "host"
           (sample_opts (Slice ["a"]))).
  simpl. discriminate.
Defined.

(** C5. Tagging twice with the same tag leaves the process, and so its
    tag set and tag sequence, as tagging once does. *)
Theorem Tag_idempotent (p : basicProcess) (t : string) :
  Tag t (Tag t p) = Tag t p ∧
  tags (Tag t (Tag t p)) = tags (Tag t p) ∧
  opt_Tags (opts (Tag t (Tag t p))) = opt_Tags (opts (Tag t p)).
Proof.
  assert (Tag t (Tag t p) = Tag t p) as Heq
    by (apply Tag_present, Tag_member).
  by rewrite Heq.
Qed.

(** C8 (fails on the code). For the process of C1, which is complete and
    whose [Running] is true, the snapshot is marked complete and running,
    carries the success flag, and its pid is the live pid written by the
    running branch over the -1 of the complete branch.  The id, options
    and host are the process's. *)
Theorem Info_pid_after_exit (p : basicProcess) c pr st :
  cmd p = Some c →
  cmd_Process c = Some pr →
  cmd_ProcessState c = Some st →
  ps_Exited st = true →
  0 ≤ Pid pr →
  Info p = Ret {| info_ID := id p;
                  info_Options := opts p;
                  info_Host := hostname p;
                  info_Complete := true;
                  info_IsRunning := true;
                  info_Successful := ps_Success st;
                  info_PID := Pid pr |} ∧
  Pid pr ≠ -1.
Proof.
  intros Hc Hpr Hst Hex Hpid. split; [|lia].
  unfold Info, Complete, Running, state_exited, state_not_exited, cmd_Pid.
  rewrite Hc. simpl. rewrite Hpr, Hst, Hex. simpl.
  destruct (Z.ltb_spec (Pid pr) 0); [lia|]. reflexivity.
Qed.

Lemma Info_pid_after_exit_witness :
  Info exited_proc
    = Ret {| info_ID := "p1";
             info_Options := sample_opts NilSlice;
             info_Host := "host";
             info_Complete := true;
             info_IsRunning := true;
             info_Successful := true;
             info_PID := 4242 |} ∧
  4242 ≠ -1.
Proof.
  apply (Info_pid_after_exit exited_proc
           {| cmd_Process := Some {| Pid := 4242 |};
              cmd_ProcessState := Some {| ps_Exited := true; ps_Success := true |} |}
           {| Pid := 4242 |}
           {| ps_Exited := true; ps_Success := true |});
    [reflexivity | reflexivity | reflexivity | reflexivity | simpl; lia].
Defined.

(** What [Info] does whenever [Complete] and [Running] return: the three
    identity fields are copied, the flags are the two answers, and the
    pid is the live pid if running, else -1 if complete, else 0. *)
Lemma Info_fields (p : basicProcess) info :
  Info p = Ret info →
  info_ID info = id p ∧ info_Options info = opts p ∧ info_Host info = hostname p ∧
  Complete p = Ret (info_Complete info) ∧
  Running p = Ret (info_IsRunning info) ∧
  (info_IsRunning info = true → deref_Pid (cmd p) = Ret (info_PID info)) ∧
  (info_IsRunning info = false → info_Complete info = true → info_PID info = -1) ∧
  (info_IsRunning info = false → info_Complete info = false → info_PID info = 0) ∧
  (info_Complete info = false → info_Successful info = false).
Proof.
  unfold Info. intros H.
  destruct (Complete p) as [complete| |] eqn:Hco; try discriminate.
  destruct (Running p) as [running| |] eqn:Hru; try discriminate.
  simpl in H.
  destruct complete, running; simpl in H;
    repeat match type of H with
    | context [match cmd p with _ => _ end] =>
        destruct (cmd p) as [c|]; simpl in H; try discriminate
    | context [Success ?x] =>
        destruct (Success x); simpl in H; try discriminate
    | context [cmd_Pid ?x] =>
        destruct (cmd_Pid x) eqn:?; simpl in H; try discriminate
    end;
    injection H as <-; simpl; split_and!; try done.
Qed.

(** ** GetTags *)

Lemma fold_append (order acc : list string) :
  fold_left (λ out t, append out t) order (Slice acc) = Slice (acc ++ order).
Proof.
  revert acc. induction order as [|t order IH]; intros acc; simpl.
  - by rewrite app_nil_r.
  - unfold append at 2. simpl. rewrite IH. by rewrite <- app_assoc.
Qed.

(** C10. Whatever order the runtime visits the tag set in, [GetTags]
    returns an allocated (non-nil) slice that holds every member of the
    set once and nothing else; the tag sequence of the options, with or
    without duplicates, plays no part in it. *)
Theorem GetTags_distinct_members (p : basicProcess) (order : list string) :
  map_range_order (tags p) order →
  ∃ out, GetTags order p = Slice out ∧
         is_nil_slice (GetTags order p) = false ∧
         NoDup out ∧
         (∀ t, t ∈ out ↔ t ∈ tags p) ∧
         (∀ t, t ∈ tags p → occurrences t out = 1%nat) ∧
         length out = size (tags p) ∧
         ∀ ts, GetTags order (set_tags p (tags p) (set_opts_Tags (opts p) ts))
               = GetTags order p.
Proof.
  intros [Hnd Hiff]. exists order.
  unfold GetTags. rewrite fold_append. simpl.
  split_and!; try done.
  - intros t Ht. rewrite (occurrences_NoDup _ _ Hnd).
    by rewrite bool_decide_eq_true_2 by (by apply Hiff).
  - unfold size, set_size. simpl.
    apply Permutation_length, NoDup_Permutation; [done|apply NoDup_elements|].
    intros t. by rewrite Hiff, elem_of_elements.
Qed.

Lemma tagged_proc_tags :
  opt_Tags (opts tagged_proc) = Slice ["a"; "a"] ∧ tags tagged_proc = {["a"]} ∪ ∅.
Proof. split; reflexivity. Qed.

Lemma tagged_proc_order : map_range_order (tags tagged_proc) ["a"].
Proof.
  destruct tagged_proc_tags as [_ ->]. split.
  - apply NoDup_singleton.
  - intros t. rewrite list_elem_of_singleton, elem_of_union, elem_of_singleton.
    split; [by left|]. intros [?|[]%not_elem_of_empty]. done.
Qed.

Lemma GetTags_distinct_members_witness :
  ∃ out, GetTags ["a"] tagged_proc = Slice out ∧
         is_nil_slice (GetTags ["a"] tagged_proc) = false ∧
         NoDup out ∧
         (∀ t, t ∈ out ↔ t ∈ tags tagged_proc) ∧
         (∀ t, t ∈ tags tagged_proc → occurrences t out = 1%nat) ∧
         length out = size (tags tagged_proc) ∧
         ∀ ts, GetTags ["a"]
                 (set_tags tagged_proc (tags tagged_proc)
                    (set_opts_Tags (opts tagged_proc) ts))
               = GetTags ["a"] tagged_proc.
Proof.
  apply (GetTags_distinct_members tagged_proc ["a"]).
  exact tagged_proc_order.
Defined.

(** ** The thread-safe wrapper *)

Lemma WithStack_nil_iff (e : error) : errors.WithStack e = None ↔ e = None.
Proof. by destruct e. Qed.

Lemma locked_unlocked_read {P A} (f : P → outcome (A * P)) (s : P) :
  locked RLock RUnlock f {| proc := s; mutex := unlocked |} =
    match f s with
    | Blocks => (Blocks, read_locked)
    | r => (r, unlocked)
    end.
Proof. unfold locked. simpl. by destruct (f s). Qed.

Lemma locked_unlocked_write {P A} (f : P → outcome (A * P)) (s : P) :
  locked Lock Unlock f {| proc := s; mutex := unlocked |} =
    match f s with
    | Blocks => (Blocks, write_locked)
    | r => (r, unlocked)
    end.
Proof. unfold locked. simpl. by destruct (f s). Qed.

(** C9. Called on a free mutex, every method of the wrapper returns what
    the wrapped process returns for that call and leaves the wrapped
    process in the state that call leaves it in, with the mutex free
    again, also when the wrapped call panics; while the wrapped call has
    not returned the wrapper has not either and holds its lock.  The
    value is the same for the seven operations that return no error; for
    [Signal], [RegisterTrigger] and [Wait] the error has gone through
    [errors.WithStack], which keeps nil nil and non-nil non-nil. *)
Theorem localProcess_forwards {P} `{Process P} (o : op) (s : P) :
  local_invoke o {| proc := s; mutex := unlocked |} =
    match invoke o s with
    | Ret (a, s') => (Ret (annotate o a, s'), unlocked)
    | Panic => (Panic, unlocked)
    | Blocks => (Blocks, held o)
    end ∧
  (∀ a, returns_error o = false → annotate o a = a) ∧
  (∀ a, returns_error o = true →
        ∃ e, error_of o a = Some e ∧
             error_of o (annotate o a) = Some (errors.WithStack e) ∧
             (errors.WithStack e = None ↔ e = None)).
Proof.
  split_and!.
  - destruct o; simpl;
      unfold local_ID, local_Info, local_Running, local_Complete, local_Signal,
             local_Tag, local_ResetTags, local_GetTags, local_RegisterTrigger,
             local_Wait;
      rewrite ?locked_unlocked_read, ?locked_unlocked_write; unfold with_stack;
      match goal with |- context [match ?f s with _ => _ end] =>
        destruct (f s) as [[a s']| |]; reflexivity end.
  - by destruct o.
  - intros a Herr. destruct o; try discriminate; simpl in *;
      (exists a; split_and!; [done|done|apply WithStack_nil_iff]).
Qed.

(** ** Runs of Wait *)

Section wait_runs.

Implicit Types (p : basicProcess) (s : wait_state) (w : effects) (evs : list event).

Lemma store_ProcessState_triggers p st :
  triggers (store_ProcessState p st) = triggers p.
Proof. done. Qed.

Lemma store_ProcessState_handle p st :
  cmd_Process <$> cmd (store_ProcessState p st) = cmd_Process <$> cmd p.
Proof. unfold store_ProcessState. simpl. by destruct (cmd p). Qed.

Lemma wait_inv_start p ctx w : wait_inv p w (wait_start p ctx w).
Proof. by split. Qed.

Lemma ctx_Done_cancel reason : ctx_Done {| ctx_Err := Some reason |} = true.
Proof. done. Qed.

Lemma WithStack_is_Some (e : error) : is_Some e → is_Some (errors.WithStack e).
Proof. intros [c ->]. by eexists. Qed.

Lemma calls_snoc info called t :
  calls info called ++ [(t, info)] = calls info (called ++ [t]).
Proof. unfold calls. by rewrite map_app. Qed.

Lemma step_inv p0 w0 ev s s' :
  wait_inv p0 w0 s → step ev s = Some s' → wait_inv p0 w0 s'.
Proof.
  intros [Htr Hha Hdel Hfi Hca Hcl Hin Hst] Hstep.
  destruct s as [p ctx closed wt c eff].
  unfold fired_inv, caller_inv in *. simpl in *.
  destruct ev, wt; unfold step in Hstep; simpl in Hstep; try discriminate;
    repeat match type of Hstep with
    | context [match ?x with _ => _ end] =>
        let E := fresh "E" in destruct x eqn:E; simpl in Hstep; try discriminate
    end;
    injection Hstep as <-;
    (split; unfold fired_inv, caller_inv; simpl;
     rewrite ?store_ProcessState_triggers, ?store_ProcessState_handle;
     try done).
  all: repeat match goal with
       | E : _ && _ = true |- _ => apply andb_true_iff in E as [? ?]
       end.
  all: try (by destruct (cmd p)).
  all: try (intros ? ? [= <- <-]; by eauto).
  all: try (intros Hc; destruct (Hcl Hc) as [h Hh]; by (discriminate || eauto)).
  all: try (by eauto).
  all: try (split; [done|exists []; split; [by rewrite Htr|by rewrite app_nil_r]]).
  all: try (by split; [intros ?; congruence|]).
  all: try (pose proof (Hin eq_refl) as Hd; split_and!;
            [by apply bool_decide_eq_true in Hd|done|done]).
  all: try (lazymatch type of Hfi with
            | _ ∧ _ => destruct Hfi as [Hi (called & Ht & Hf)]
            end).
  all: try (split; [done|]; eexists (called ++ [_]);
            by rewrite <- app_assoc, Hf, <- app_assoc, calls_snoc).
  all: try (eexists; split; [done|]; by rewrite Ht, app_nil_r).
  all: try (subst closed; destruct Hcl as [? ?]; by (done || discriminate)).
  all: try (destruct src; simpl in *; try done;
            by (intuition auto using WithStack_is_Some; subst; done)).
  all: try (destruct c as [| |[] ?|[[]|] ?]; simpl in *;
            try discriminate; try done; by intuition (try discriminate; eauto)).
Qed.

Lemma run_inv p0 w0 evs s s' :
  wait_inv p0 w0 s → run_events evs s = Some s' → wait_inv p0 w0 s'.
Proof.
  revert s. induction evs as [|ev evs IH]; intros s Hinv Hrun; simpl in Hrun.
  - by injection Hrun as <-.
  - destruct (step ev s) as [s1|] eqn:Hstep; [|done].
    eapply IH; [|done]. by eapply step_inv.
Qed.

Lemma run_events_app evs1 evs2 s :
  run_events (evs1 ++ evs2) s = s' ← run_events evs1 s; run_events evs2 s'.
Proof.
  revert s. induction evs1 as [|ev evs1 IH]; intros s; simpl; [done|].
  destruct (step ev s); simpl; [apply IH|done].
Qed.

(** [Run] in steps: one [EvTrigger] for each trigger still to call. *)
Lemma run_triggers info rest s :
  ws_waiter s = WRun info rest →
  run_events (replicate (length rest) EvTrigger) s
    = Some (set_waiter (set_eff s (Run rest info (ws_eff s))) (WRun info [])).
Proof.
  revert s. induction rest as [|t rest IH]; intros s Hw.
  - destruct s as [p ctx closed wt c [dl fi]]. simpl in *. subst wt.
    unfold set_waiter, set_eff, Run. simpl. by rewrite app_nil_r.
  - destruct s as [p ctx closed wt c [dl fi]]. simpl in *. subst wt.
    unfold step. simpl. rewrite IH by done.
    unfold set_waiter, set_eff, Run. simpl. by rewrite <- app_assoc.
Qed.

(** Once the send was received the waiter can always run to its end,
    whatever the caller does. *)
Lemma finish_runs s info :
  handed_off (ws_waiter s) = true →
  ws_waiter s ≠ WPanicked →
  Info (ws_proc s) = Ret info →
  ∃ s', run_events (finish (ws_waiter s) (triggers (ws_proc s))) s = Some s' ∧
        ws_waiter s' = WExit true ∧
        ws_caller s' = ws_caller s ∧
        ws_proc s' = ws_proc s.
Proof.
  intros Hh Hnp Hinfo.
  destruct s as [p ctx closed wt c eff]. simpl in *.
  destruct wt as [| | |info' rest| |[]|[]|]; try discriminate; try done; simpl.
  - unfold step at 1. simpl. rewrite Hinfo. simpl.
    rewrite run_events_app, (run_triggers info (triggers p)) by done.
    simpl. eauto.
  - rewrite run_events_app, (run_triggers info' rest) by done. simpl. eauto.
  - eauto.
  - eauto.
Qed.

End wait_runs.

(** ** Triggers and cancellation *)









(** ** Wait under a schedule *)

(** A played schedule is a run: the events that could happen, in order. *)
Lemma play_is_run (sched : list event) (s : wait_state) :
  ∃ evs, run_events evs s = Some (play sched s).
Proof.
  revert s. induction sched as [|ev sched IH]; intros s.
  - by exists [].
  - unfold play. simpl. destruct (step ev s) as [s1|] eqn:Hstep; simpl.
    + destruct (IH s1) as [evs Hevs]. exists (ev :: evs). simpl.
      by rewrite Hstep.
    + apply IH.
Qed.

(** A call of [Wait] that returns has either taken an early return, with
    nil, or ended a run of the two goroutines. *)
Lemma Wait_returns (sched : list event) ctx p w e p' w' :
  Wait sched ctx p w = Ret (e, (p', w')) →
  (Wait_early p = Some e ∧ p' = p ∧ w' = w ∧ e = None) ∨
  (Wait_early p = None ∧
   ∃ evs s src, run_events evs (wait_start p ctx w) = Some s ∧
                ws_caller s = CReturned src e ∧
                ws_proc s = p' ∧ ws_eff s = w').
Proof.
  unfold Wait. destruct (Wait_early p) as [e0|] eqn:Hearly.
  - intros [= <- <- <-]. left. split_and!; try done.
    unfold Wait_early in Hearly.
    repeat case_match; by simplify_eq.
  - intros Hret. right. split; [done|].
    destruct (play_is_run sched (wait_start p ctx w)) as [evs Hevs].
    exists evs, (play sched (wait_start p ctx w)).
    destruct (ws_caller (play sched (wait_start p ctx w))) as [| | |src e1] eqn:Hc;
      destruct (ws_waiter (play sched (wait_start p ctx w)));
      try discriminate; injection Hret as <- <- <-; by exists src.
Qed.

(** The child exits with status 0 and the schedule lets the waiter
    finish: [Wait] returns nil and the three triggers were called in
    order with one snapshot.  The snapshot is marked complete and running
    and carries the live pid (see C1 and C8). *)
Example Wait_natural_exit_example :
  ∃ info,
    Wait (env_sched sample_env) background abc_proc no_effects
      = Ret (None, (exited_proc_abc, {| delivered := [];
                                        fired := calls info ["A"; "B"; "C"] |})) ∧
    info_Complete info = true ∧ info_IsRunning info = true ∧ info_PID info = 4242.
Proof. eexists. split_and!; reflexivity. Qed.

(** The same call through the wrapper, from a free mutex. *)
Example local_Wait_example :
  (local_invoke (OpWait background)
     {| proc := sample_sys abc_proc; mutex := unlocked |}).2 = unlocked ∧
  fst <$> (local_invoke (OpWait background)
             {| proc := sample_sys abc_proc; mutex := unlocked |}).1
    = Ret (None : error).
Proof. split; reflexivity. Qed.

(** [RegisterTrigger] through the wrapper: the error of the basic process
    comes back under [errors.WithStack]. *)
Lemma localProcess_forwards_witness :
  local_invoke (OpRegisterTrigger (Some "A"))
    {| proc := sample_sys running_proc; mutex := unlocked |}
  = (Ret (Some (WithStackErr
                  (Fundamental "cannot register trigger for complete project")),
          sample_sys running_proc),
     unlocked).
Proof.
  exact (proj1 (localProcess_forwards (OpRegisterTrigger (Some "A"))
                  (sample_sys running_proc))).
Defined.

(** * Further properties of the code *)

(** ** State queries *)


(** X2. [Complete] panics exactly on a process whose command has no OS
    handle and no stored "exited" status; it answers true exactly when
    the stored status says "exited" or, failing that, the pid of the
    handle is -1. *)
Theorem Complete_answers (p : basicProcess) :
  (Complete p = Panic ↔
   ∃ c, cmd p = Some c ∧ state_exited c = false ∧ cmd_Process c = None) ∧
  (Complete p = Ret true ↔
   ∃ c, cmd p = Some c ∧
        (state_exited c = true ∨
         ∃ pr, cmd_Process c = Some pr ∧ Pid pr = -1)) ∧
  Complete p ≠ Blocks.
Proof.
  unfold Complete, cmd_Pid. destruct (cmd p) as [c|].
  - destruct (state_exited c) eqn:Hex.
    + split_and!; [| |done].
      * split; [done|]. intros (c' & Hc' & Hf & _). simplify_eq; try congruence.
      * split; [|done]. intros _. exists c. by auto.
    + destruct (cmd_Process c) as [pr|] eqn:Hpr; simpl.
      * split_and!; [| |done].
        -- split; [done|]. intros (c' & Hc' & _ & Hn). simplify_eq; try congruence.
        -- split.
           ++ intros [= Heq%Z.eqb_eq]. exists c. split; [done|]. right.
              by exists pr.
           ++ intros (c' & Hc' & Hor). simplify_eq; try congruence.
              destruct Hor as [?|(pr' & Hpr' & Hpid)]; [congruence|].
              simplify_eq. by rewrite Hpid.
      * split_and!; [| |done].
        -- split; [|done]. intros _. by exists c.
        -- split; [done|]. intros (c' & Hc' & Hor). simplify_eq; try congruence.
           destruct Hor as [?|(pr' & Hpr' & _)]; congruence.
  - split_and!; [| |done]; (split; [done|]); intros (c & Hc & _); simplify_eq; try congruence.
Qed.

(** X3. A child whose stored exit status says "not exited" (it was
    stopped or killed by a signal) is reported running, whatever its pid;
    it is complete only if its pid is -1; and [Wait] does not take an
    early return for it. *)
Theorem signalled_child_stays_running (p : basicProcess) c pr st :
  cmd p = Some c →
  cmd_Process c = Some pr →
  cmd_ProcessState c = Some st →
  ps_Exited st = false →
  Running p = Ret true ∧
  Complete p = Ret (Pid pr =? -1) ∧
  Wait_early p = None.
Proof.
  intros Hc Hpr Hst Hex.
  unfold Running, Complete, Wait_early, state_not_exited, state_exited, cmd_Pid.
  by rewrite Hc, Hpr, Hst, Hex.
Qed.

Lemma signalled_child_stays_running_witness :
  Running killed_proc = Ret true ∧
  Complete killed_proc = Ret (4242 =? -1) ∧
  Wait_early killed_proc = None.
Proof.
  apply (signalled_child_stays_running killed_proc
           {| cmd_Process := Some {| Pid := 4242 |};
              cmd_ProcessState := Some {| ps_Exited := false; ps_Success := false |} |}
           {| Pid := 4242 |}
           {| ps_Exited := false; ps_Success := false |}); reflexivity.
Defined.

(** X4. Whenever [Info] returns, the snapshot carries the id, options
    and host of the process and the answers of [Complete] and [Running];
    its pid is the live pid if running, else -1 if complete, else 0; its
    success flag is what the stored exit status reports if complete, and
    false otherwise. *)
Theorem Info_snapshot (p : basicProcess) info :
  Info p = Ret info →
  info_ID info = id p ∧ info_Options info = opts p ∧ info_Host info = hostname p ∧
  Complete p = Ret (info_Complete info) ∧
  Running p = Ret (info_IsRunning info) ∧
  (info_IsRunning info = true → deref_Pid (cmd p) = Ret (info_PID info)) ∧
  (info_IsRunning info = false →
   info_PID info = if info_Complete info then -1 else 0) ∧
  (info_Complete info = true →
   ∃ c st, cmd p = Some c ∧ cmd_ProcessState c = Some st ∧
           info_Successful info = ps_Success st) ∧
  (info_Complete info = false → info_Successful info = false).
Proof.
  intros H.
  destruct (Info_fields p info H)
    as (Hid & Hop & Hho & Hco & Hru & Hpid & Hm1 & H0 & Hsu).
  split_and!; try done.
  - intros Hr. destruct (info_Complete info); auto.
  - intros Hc. unfold Info in H. rewrite Hco, Hru, Hc in H. simpl in H.
    destruct (cmd p) as [c|] eqn:Hcmd; [|done]. simpl in H.
    destruct (cmd_ProcessState c) as [st|] eqn:Hst; [|done]. simpl in H.
    exists c, st. split_and!; try done.
    destruct (info_IsRunning info); simpl in H;
      [destruct (cmd_Pid c); simpl in H; try done|];
      injection H as H'; by rewrite <- H'.
Qed.

Lemma Info_snapshot_witness :
  info_ID <$> Info running_proc = Ret "p1" ∧
  Complete running_proc = Ret false ∧
  Running running_proc = Ret true ∧
  info_PID <$> Info running_proc = Ret 4242 ∧
  info_Successful <$> Info running_proc = Ret false.
Proof.
  destruct (Info running_proc) as [info| |] eqn:Hinfo; try discriminate.
  destruct (Info_snapshot running_proc info Hinfo)
    as (Hid & _ & _ & Hco & Hru & Hpid & _ & _ & Hsu).
  injection Hinfo as <-. split_and!; reflexivity.
Defined.

(** X5. [Info] panics exactly on a process whose command has no stored
    "exited" status and either no OS handle (the start failed) or a
    handle with pid -1 and no stored status at all. *)
Theorem Info_panics_iff (p : basicProcess) :
  (Info p = Panic ↔
   ∃ c, cmd p = Some c ∧ state_exited c = false ∧
        (cmd_Process c = None ∨
         (∃ pr, cmd_Process c = Some pr ∧ Pid pr = -1) ∧
         cmd_ProcessState c = None)) ∧
  Info p ≠ Blocks.
Proof.
  unfold Info, Complete, Running, state_exited, state_not_exited, cmd_Pid.
  destruct (cmd p) as [[[[pid]|] [[[] su]|]]|]; simpl;
    try destruct (Z.eqb_spec pid (-1)); try destruct (Z.ltb_spec pid 0);
    simpl; (split; [|done]); (split; [try done|]).
  all: try (intros (c & Hc & Hex & Hor); simplify_eq; simpl in *;
            destruct Hor as [?|[(pr & ? & ?) ?]]; simplify_eq; simpl in *;
            done || lia).
  all: intros _; eexists; split; [done|]; split; [done|]; eauto.
Qed.

(** ** Construction and tags *)

Lemma Tag_frame (p : basicProcess) (t : string) :
  id (Tag t p) = id p ∧ hostname (Tag t p) = hostname p ∧
  cmd (Tag t p) = cmd p ∧ triggers (Tag t p) = triggers p ∧
  opt_Args (opts (Tag t p)) = opt_Args (opts p) ∧
  opt_started (opts (Tag t p)) = opt_started (opts p).
Proof. unfold Tag. by case_bool_decide. Qed.

Lemma fold_Tag_frame (l : list string) (p : basicProcess) :
  let q := fold_left (λ p t, Tag t p) l p in
  id q = id p ∧ hostname q = hostname p ∧
  cmd q = cmd p ∧ triggers q = triggers p ∧
  opt_Args (opts q) = opt_Args (opts p) ∧
  opt_started (opts q) = opt_started (opts p).
Proof.
  revert p. induction l as [|t l IH]; intros p; simpl; [done|].
  destruct (IH (Tag t p)) as (-> & -> & -> & -> & -> & ->).
  apply Tag_frame.
Qed.

(** Replaying the tags [l]: the sequence grows by the tags of [l] that
    were not in the set, each once; the set grows by all of [l]. *)
Lemma fold_Tag_extra (l : list string) (p : basicProcess) :
  let q := fold_left (λ p t, Tag t p) l p in
  (∀ t, t ∈ tags q ↔ t ∈ tags p ∨ t ∈ l) ∧
  ∃ extra,
    elems (opt_Tags (opts q)) = elems (opt_Tags (opts p)) ++ extra ∧
    NoDup extra ∧
    (∀ t, t ∈ extra ↔ t ∈ l ∧ t ∉ tags p).
Proof.
  revert p. induction l as [|x l IH]; intros p; simpl.
  - split; [intros t; rewrite elem_of_nil; tauto|].
    exists []. rewrite app_nil_r. split_and!; [done|apply NoDup_nil_2|].
    intros t. rewrite !elem_of_nil. tauto.
  - destruct (IH (Tag x p)) as (Hset & extra & Hseq & Hnd & Hex).
    destruct (decide (x ∈ tags p)) as [Hin|Hout].
    + rewrite Tag_present in * by done.
      split.
      * intros t. rewrite Hset, elem_of_cons.
        split; [tauto|]. intros [?|[->|?]]; auto.
      * exists extra. split_and!; [done|done|].
        intros t. rewrite Hex, elem_of_cons.
        split; [tauto|]. intros [[->|?] ?]; [done|tauto].
    + destruct (Tag_absent p x Hout) as [Htags Hopt].
      rewrite Hopt in Hseq. simpl in Hseq. rewrite <- app_assoc in Hseq.
      split.
      * intros t. rewrite Hset, Htags, elem_of_union, elem_of_singleton, elem_of_cons.
        tauto.
      * exists (x :: extra). split_and!; [done| |].
        -- apply NoDup_cons. split; [|done].
           rewrite Hex, Htags, elem_of_union, elem_of_singleton. tauto.
        -- intros t. rewrite !elem_of_cons, Hex, Htags, elem_of_union,
             elem_of_singleton.
           split; [intros [->|[? ?]]; [tauto|]; split; [tauto|]; tauto|].
           intros [[->|?] ?]; [tauto|].
           destruct (decide (t = x)) as [->|?]; [tauto|]. right. tauto.
Qed.

(** X6. [newBasicProcess].  When the command cannot be resolved there is
    no process, the error wraps the cause, and the caller's options are
    not touched.  Otherwise there is a process and no error, whether or
    not the OS started the command: it carries the generated id, the host
    name, the command as [Start] left it and no trigger; [started] is set
    in its options and in the caller's; its tag set holds exactly the
    tags of the options; and its tag sequence is the options' sequence
    followed by each distinct tag of it once more. *)
Theorem newBasicProcess_result (os_pid : option Z) (uuid host : string)
    (o : CreateOptions) :
  (∀ e, newBasicProcess (inl e) os_pid uuid host o
        = (None,
           Some (WithMessage e "problem building command from options" []),
           o)) ∧
  (∀ c, ∃ p,
     newBasicProcess (inr c) os_pid uuid host o
       = (Some p, None, set_opts_started o true) ∧
     id p = uuid ∧ hostname p = host ∧ triggers p = [] ∧
     cmd p = Some (Start os_pid c).1 ∧
     opt_started (opts p) = true ∧ opt_Args (opts p) = opt_Args o ∧
     (∀ t, t ∈ tags p ↔ t ∈ elems (opt_Tags o)) ∧
     ∃ extra,
       elems (opt_Tags (opts p)) = elems (opt_Tags o) ++ extra ∧
       NoDup extra ∧
       (∀ t, t ∈ extra ↔ t ∈ elems (opt_Tags o))).
Proof.
  split; [done|]. intros c. eexists. split; [reflexivity|].
  match goal with |- context [fold_left ?f ?l ?p0] =>
    destruct (fold_Tag_frame l p0) as (Hid & Hho & Hcmd & Htr & Har & Hst);
    destruct (fold_Tag_extra l p0) as (Hset & extra & Hseq & Hnd & Hex);
    set (q := fold_left f l p0) in * end.
  simpl in *. split_and!; try done.
  - intros t. rewrite Hset. split; [intros [[]%not_elem_of_empty|]|]; auto.
  - exists extra. split_and!; [done|done|].
    intros t. rewrite Hex. split; [tauto|]. intros Ht. split; [done|].
    apply not_elem_of_empty.
Qed.

(** X7. A process built from options that carry no tag keeps its tag
    set and tag sequence in agreement under every sequence of [Tag] and
    [ResetTags] calls: the sequence has no duplicate and holds exactly
    the members of the set. *)
Theorem untagged_process_stays_consistent c os_pid uuid host o p
    (cs : list tag_call) :
  elems (opt_Tags o) = [] →
  (newBasicProcess (inr c) os_pid uuid host o).1.1 = Some p →
  tags_consistent (do_tag_calls cs p) ∧ tags_once (do_tag_calls cs p).
Proof.
  intros Hnil Hnew.
  assert (tags_consistent (do_tag_calls cs p)) as Hcons.
  { apply do_tag_calls_consistent.
    simpl in Hnew. rewrite Hnil in Hnew. simpl in Hnew. injection Hnew as <-.
    split; simpl; rewrite ?Hnil; [apply NoDup_nil_2|].
    intros t. rewrite elem_of_nil. split; [intros []%not_elem_of_empty|done]. }
  split; [done|]. by apply tags_consistent_once.
Qed.

Lemma untagged_process_stays_consistent_witness :
  tags_consistent
    (do_tag_calls [CallTag "a"; CallTag "b"; CallTag "a"; CallResetTags; CallTag "c"]
       built_proc) ∧
  tags_once
    (do_tag_calls [CallTag "a"; CallTag "b"; CallTag "a"; CallResetTags; CallTag "c"]
       built_proc).
Proof.
  apply (untagged_process_stays_consistent fresh_cmd (Some 4242)
           "p1" "host" (sample_opts NilSlice)); reflexivity.
Defined.


(** X9. Tagging never removes or reorders: after tagging with the tags
    [l] in turn, the old sequence is a prefix of the new one, and what
    follows it is the tags of [l] that were not in the set, each once and
    in the order [l] names them first.  The set gains exactly the tags
    of [l]. *)
Theorem Tag_appends_in_order (l : list string) (p : basicProcess) :
  let q := fold_left (λ p t, Tag t p) l p in
  (∀ t, t ∈ tags q ↔ t ∈ tags p ∨ t ∈ l) ∧
  ∃ extra,
    elems (opt_Tags (opts q)) = elems (opt_Tags (opts p)) ++ extra ∧
    NoDup extra ∧
    sublist extra l ∧
    (∀ t, t ∈ extra ↔ t ∈ l ∧ t ∉ tags p).
Proof.
  revert p. induction l as [|x l IH]; intros p; simpl.
  - split; [intros t; rewrite elem_of_nil; tauto|].
    exists []. rewrite app_nil_r. split_and!; [done|apply NoDup_nil_2|done|].
    intros t. rewrite !elem_of_nil. tauto.
  - destruct (IH (Tag x p)) as (Hset & extra & Hseq & Hnd & Hsub & Hex).
    destruct (decide (x ∈ tags p)) as [Hin|Hout].
    + rewrite Tag_present in * by done.
      split.
      * intros t. rewrite Hset, elem_of_cons.
        split; [tauto|]. intros [?|[->|?]]; auto.
      * exists extra. split_and!; [done|done|by apply sublist_cons|].
        intros t. rewrite Hex, elem_of_cons.
        split; [tauto|]. intros [[->|?] ?]; [done|tauto].
    + destruct (Tag_absent p x Hout) as [Htags Hopt].
      rewrite Hopt in Hseq. simpl in Hseq. rewrite <- app_assoc in Hseq.
      split.
      * intros t. rewrite Hset, Htags, elem_of_union, elem_of_singleton, elem_of_cons.
        tauto.
      * exists (x :: extra). split_and!; [done| |by apply sublist_skip|].
        -- apply NoDup_cons. split; [|done].
           rewrite Hex, Htags, elem_of_union, elem_of_singleton. tauto.
        -- intros t. rewrite !elem_of_cons, Hex, Htags, elem_of_union,
             elem_of_singleton.
           split; [intros [->|[? ?]]; [tauto|]; split; [tauto|]; tauto|].
           intros [[->|?] ?]; [tauto|].
           destruct (decide (t = x)) as [->|?]; [tauto|]. right. tauto.
Qed.

(** X10. On a process whose set and sequence agree, [GetTags] returns
    the tags of the sequence, each once, in the order the runtime ranges
    over the set: a permutation of the sequence. *)
Theorem GetTags_permutes_sequence (p : basicProcess) (order : list string) :
  tags_consistent p →
  map_range_order (tags p) order →
  elems (GetTags order p) ≡ₚ elems (opt_Tags (opts p)).
Proof.
  intros [Hnd Hiff] [Hndo Hiffo].
  unfold GetTags. rewrite fold_append. simpl.
  apply NoDup_Permutation; [done|done|].
  intros t. by rewrite Hiffo, Hiff.
Qed.

Lemma GetTags_permutes_sequence_witness :
  elems (GetTags ["b"; "a"] (Tag "b" (Tag "a" built_proc)))
    ≡ₚ elems (opt_Tags (opts (Tag "b" (Tag "a" built_proc)))).
Proof.
  apply GetTags_permutes_sequence.
  - apply Tag_preserves_consistent, Tag_preserves_consistent.
    split; [apply NoDup_nil_2|]. intros t. simpl.
    rewrite elem_of_nil. split; [intros []%not_elem_of_empty|done].
  - split.
    + apply NoDup_cons. split; [|apply NoDup_singleton].
      rewrite list_elem_of_singleton. discriminate.
    + intros t. change (tags (Tag "b" (Tag "a" built_proc)))
        with ({["b"]} ∪ ({["a"]} ∪ (∅ : gset string))).
      rewrite !elem_of_cons, elem_of_nil, !elem_of_union, !elem_of_singleton.
      split; [tauto|]. intros [?|[?|[]%not_elem_of_empty]]; tauto.
Defined.

(** X11. Two [Tag] calls commute on the set, and on the sequence up to
    order: swapping them gives the same set and a permutation of the same
    sequence, and the very same process unless both tags are new and
    different. *)
Theorem Tag_swap (a b : string) (p : basicProcess) :
  tags (Tag a (Tag b p)) = tags (Tag b (Tag a p)) ∧
  elems (opt_Tags (opts (Tag a (Tag b p))))
    ≡ₚ elems (opt_Tags (opts (Tag b (Tag a p)))) ∧
  (a ∈ tags p ∨ b ∈ tags p ∨ a = b → Tag a (Tag b p) = Tag b (Tag a p)).
Proof.
  destruct (decide (a = b)) as [->|Hab]; [done|].
  destruct (decide (a ∈ tags p)) as [Ha|Ha]; destruct (decide (b ∈ tags p)) as [Hb|Hb].
  - by rewrite !(Tag_present _ _) by (by rewrite ?Tag_present).
  - rewrite (Tag_present p a) by done.
    assert (a ∈ tags (Tag b p)) as Ha'.
    { destruct (Tag_absent p b Hb) as [-> _]. apply elem_of_union. by right. }
    by rewrite (Tag_present _ a Ha').
  - rewrite (Tag_present p b) by done.
    assert (b ∈ tags (Tag a p)) as Hb'.
    { destruct (Tag_absent p a Ha) as [-> _]. apply elem_of_union. by right. }
    by rewrite (Tag_present _ b Hb').
  - destruct (Tag_absent p a Ha) as [Hta Hsa].
    destruct (Tag_absent p b Hb) as [Htb Hsb].
    assert (a ∉ tags (Tag b p)) as Ha'
      by (rewrite Htb, elem_of_union, elem_of_singleton; tauto).
    assert (b ∉ tags (Tag a p)) as Hb'
      by (rewrite Hta, elem_of_union, elem_of_singleton; intros [?|?]; auto).
    destruct (Tag_absent _ a Ha') as [-> ->].
    destruct (Tag_absent _ b Hb') as [-> ->].
    rewrite Hta, Htb, Hsa, Hsb. simpl. split_and!.
    + apply set_eq. intros t. rewrite !elem_of_union. tauto.
    + rewrite <- !app_assoc. apply Permutation_app_head. simpl. apply perm_swap.
    + tauto.
Qed.

(** ** More on runs of Wait *)

Lemma step_channel_inv p0 w0 ev s s' :
  wait_inv p0 w0 s → channel_inv s → step ev s = Some s' → channel_inv s'.
Proof.
  intros [_ _ _ _ _ Hcl Hin _] [Hrc Hgu Hha Hna Hex] Hstep.
  destruct s as [p ctx closed wt c eff]. simpl in *.
  destruct ev, wt; unfold step in Hstep; simpl in Hstep; try discriminate;
    repeat match type of Hstep with
    | context [match ?x with _ => _ end] =>
        let E := fresh "E" in destruct x eqn:E; simpl in Hstep; try discriminate
    end;
    injection Hstep as <-; split; simpl; try done.
  all: repeat match goal with
       | E : _ && _ = true |- _ => apply andb_true_iff in E as [? ?]
       end.
  all: try (by intros; subst; eauto).
  all: try (by eauto).
  all: try (destruct c as [| |[] ?|[[]|] ?]; simpl in *;
            try discriminate; by intuition (try discriminate; eauto)).
  all: try (by destruct handed; simpl in *; eauto).
  all: match goal with
       | Hc : ?closed = true, Hcl : ?closed = true → _ |- _ =>
           destruct (Hcl Hc) as [h Hh]; try discriminate
       end.
  all: intros _; split; [done|]; destruct handed; simpl in *; [|by auto].
  all: destruct c; simpl in *; try discriminate; by specialize (Hha eq_refl).
Qed.

Lemma channel_inv_start p ctx w : channel_inv (wait_start p ctx w).
Proof. by split. Qed.

Lemma run_channel_inv p0 w0 evs s s' :
  wait_inv p0 w0 s → channel_inv s → run_events evs s = Some s' → channel_inv s'.
Proof.
  revert s. induction evs as [|ev evs IH]; intros s Hinv Hch Hrun; simpl in Hrun.
  - by injection Hrun as <-.
  - destruct (step ev s) as [s1|] eqn:Hstep; [|done].
    eapply (IH s1); [by eapply step_inv|by eapply step_channel_inv|done].
Qed.

Lemma run_events_snoc evs ev s0 s :
  run_events (evs ++ [ev]) s0 = Some s ↔
  ∃ s1, run_events evs s0 = Some s1 ∧ step ev s1 = Some s.
Proof.
  rewrite run_events_app. destruct (run_events evs s0) as [s1|]; simpl.
  - destruct (step ev s1) as [s2|] eqn:Hs; simpl.
    + split; [intros [= <-]; by eauto|].
      intros (s1' & [= <-] & Hs'). congruence.
    + split; [done|]. intros (s1' & [= <-] & Hs'). congruence.
  - split; [done|]. intros (s1 & Hs & _). done.
Qed.

(** X12. [Wait] returns at once, with nil, exactly for a process that has
    no command, or no OS handle, or a stored status that says "exited";
    it does so under every schedule and for every context, cancelled or
    not, and leaves the process and the world as they were. *)
Theorem Wait_early_return (p : basicProcess) :
  (Wait_early p = Some None ↔
   cmd p = None ∨
   ∃ c, cmd p = Some c ∧ (cmd_Process c = None ∨ state_exited c = true)) ∧
  (Wait_early p = None ↔
   ∃ c pr, cmd p = Some c ∧ cmd_Process c = Some pr ∧ state_exited c = false) ∧
  (Wait_early p = Some None →
   ∀ sched ctx w, Wait sched ctx p w = Ret (None, (p, w))).
Proof.
  unfold Wait, Wait_early.
  destruct (cmd p) as [c|].
  - destruct (cmd_Process c) as [pr|] eqn:Hpr.
    + destruct (state_exited c) eqn:Hex.
      * split_and!; [| |done].
        -- split; [|done]. intros _. right. exists c. by auto.
        -- split; [done|]. intros (c' & pr' & Hc & _ & Hf).
           simplify_eq; congruence.
      * split_and!; [| |done].
        -- split; [done|].
           intros [?|(c' & Hc & [?|?])]; simplify_eq; congruence.
        -- split; [|done]. intros _. by exists c, pr.
    + split_and!; [| |done].
      * split; [|done]. intros _. right. exists c. by auto.
      * split; [done|]. intros (c' & pr' & Hc & Hp & _).
        simplify_eq; congruence.
  - split_and!; [| |done].
    + split; [|done]. intros _. by left.
    + split; [done|]. intros (c & pr & Hc & _). done.
Qed.

(** X13. The channel is closed exactly when the background waiter has
    finished, and once it is closed the waiter takes no further step: it
    never sends on the closed channel and never closes it again. *)
Theorem waiter_done_after_close p ctx w evs s :
  run_events evs (wait_start p ctx w) = Some s →
  (ws_closed s = true ↔ ∃ h, ws_waiter s = WExit h) ∧
  (ws_closed s = true → ∀ ev, waiter_event ev = true → step ev s = None).
Proof.
  intros Hrun.
  pose proof (run_inv p w evs _ _ (wait_inv_start p ctx w) Hrun) as Hinv.
  pose proof (run_channel_inv p w evs _ _ (wait_inv_start p ctx w)
                (channel_inv_start p ctx w) Hrun) as Hch.
  destruct Hinv as [_ _ _ _ _ Hcl _ _]. destruct Hch as [_ _ _ _ Hex].
  split.
  - split; [done|]. intros [h Hh]. by eapply Hex.
  - intros Hc ev Hev. destruct (Hcl Hc) as [h Hh].
    unfold step. rewrite Hh. by destruct ev.
Qed.

Lemma waiter_done_after_close_witness :
  ∃ s, run_events (natural_exit_trace ++ finish WSent ["A"; "B"; "C"])
         (wait_start abc_proc background no_effects) = Some s ∧
       ws_closed s = true ∧ ws_waiter s = WExit true ∧
       step EvClose s = None ∧ step EvHandOff s = None.
Proof.
  assert (run_events (natural_exit_trace ++ finish WSent ["A"; "B"; "C"])
            (wait_start abc_proc background no_effects) = Some abc_final)
    as Hrun by (vm_compute; reflexivity).
  exists abc_final. split; [exact Hrun|]. split; [reflexivity|].
  split; [reflexivity|].
  pose proof (waiter_done_after_close abc_proc background no_effects
                (natural_exit_trace ++ finish WSent ["A"; "B"; "C"]) abc_final Hrun)
    as [_ Hnone].
  split; apply Hnone; reflexivity.
Defined.

Lemma run_both_inv p ctx w evs s :
  run_events evs (wait_start p ctx w) = Some s →
  wait_inv p w s ∧ channel_inv s.
Proof.
  intros Hrun. split.
  - by eapply run_inv; [apply wait_inv_start|].
  - by eapply run_channel_inv;
      [apply (wait_inv_start p ctx w)|apply channel_inv_start|].
Qed.

(** A caller that has returned stays returned. *)
Lemma step_keeps_return ev s s' src e :
  step ev s = Some s' →
  ws_caller s = CReturned src e →
  ws_caller s' = CReturned src e.
Proof.
  intros Hstep Hc. destruct s as [p ctx closed wt c eff]. simpl in *. subst c.
  destruct ev, wt; unfold step in Hstep; simpl in Hstep; try discriminate;
    repeat match type of Hstep with
    | context [match ?x with _ => _ end] =>
        destruct x; simpl in Hstep; try discriminate
    end;
    by injection Hstep as <-.
Qed.

Lemma run_keeps_return evs s s' src e :
  run_events evs s = Some s' →
  ws_caller s = CReturned src e →
  ws_caller s' = CReturned src e.
Proof.
  revert s. induction evs as [|ev evs IH]; intros s Hrun Hc; simpl in Hrun.
  - by injection Hrun as <-.
  - destruct (step ev s) as [s1|] eqn:Hstep; [|done].
    eapply IH; [done|]. by eapply step_keeps_return.
Qed.

(** X14. While the context is not cancelled, [Wait] returns in one way
    only: with the value the waiter sent after the OS wait returned. *)
Theorem Wait_returns_without_cancel p ctx w evs s src e :
  run_events evs (wait_start p ctx w) = Some s →
  ws_caller s = CReturned src e →
  ctx_Done (ws_ctx s) = false →
  src = Some FromWait ∧ handed_off (ws_waiter s) = true.
Proof.
  intros Hrun Hc Hctx.
  destruct (run_both_inv _ _ _ _ _ Hrun) as [Hinv Hch].
  destruct Hinv as [_ _ _ _ Hca _ _ _]. destruct Hch as [Hrc _ _ _ _].
  unfold caller_inv in Hca. rewrite Hc in *. simpl in *.
  destruct src as [[]|].
  - done.
  - destruct Hca as (_ & ? & _). congruence.
  - destruct (Hrc eq_refl) as [_ ?]. congruence.
  - destruct Hca as [_ ?]. congruence.
Qed.

Lemma Wait_returns_without_cancel_witness :
  ∃ s, run_events natural_exit_trace (wait_start abc_proc background no_effects)
         = Some s ∧
       ws_caller s = CReturned (Some FromWait) None ∧
       handed_off (ws_waiter s) = true.
Proof.
  eexists. split; [reflexivity|]. split; [reflexivity|].
  exact (proj2 (Wait_returns_without_cancel abc_proc background no_effects
                  natural_exit_trace _ (Some FromWait) None
                  eq_refl eq_refl eq_refl)).
Defined.

(** X15. When [Wait] has returned in any other way than with the value
    of the OS wait (the cancellation case, the context's error sent by
    the waiter, or the zero value of the closed channel), the context is
    cancelled, no trigger has been called, and none is called in the
    rest of the run, whenever the child exits. *)
Theorem cancelled_Wait_fires_nothing p ctx w evs s src e :
  run_events evs (wait_start p ctx w) = Some s →
  ws_caller s = CReturned src e →
  src ≠ Some FromWait →
  ctx_Done (ws_ctx s) = true ∧
  ∀ evs' s', run_events evs' s = Some s' → fired (ws_eff s') = fired w.
Proof.
  intros Hrun Hc Hsrc. split.
  - destruct (run_both_inv _ _ _ _ _ Hrun) as [Hinv Hch].
    destruct Hinv as [_ _ _ _ Hca _ _ _]. destruct Hch as [Hrc _ _ _ _].
    unfold caller_inv in Hca. rewrite Hc in *. simpl in *.
    destruct src as [[]|]; [done| | |].
    + by destruct Hca as (_ & ? & _).
    + by destruct (Hrc eq_refl).
    + by destruct Hca.
  - intros evs' s' Hrun'.
    assert (run_events (evs ++ evs') (wait_start p ctx w) = Some s') as Hall
      by (by rewrite run_events_app, Hrun).
    destruct (run_both_inv _ _ _ _ _ Hall) as [Hinv Hch].
    destruct Hinv as [_ _ _ Hfi _ _ _ _]. destruct Hch as [_ _ Hha _ _].
    pose proof (run_keeps_return _ _ _ _ _ Hrun' Hc) as Hc'.
    rewrite Hc' in Hha. unfold fired_inv in Hfi.
    assert (handed_off (ws_waiter s') = false) as Hno.
    { destruct (handed_off (ws_waiter s')); [|done].
      specialize (Hha eq_refl). by destruct src as [[]|]. }
    by destruct (ws_waiter s') as [| | | | |[]|[]|].
Qed.

Lemma cancelled_Wait_fires_nothing_witness :
  ∃ s, run_events deadline_trace (wait_start abc_proc background no_effects)
         = Some s ∧
       ws_caller s = CReturned None canceled_error ∧
       ∀ evs' s', run_events evs' s = Some s' → fired (ws_eff s') = [].
Proof.
  eexists. split; [reflexivity|]. split; [reflexivity|].
  refine (proj2 (cancelled_Wait_fires_nothing abc_proc background no_effects
                   deadline_trace _ None canceled_error eq_refl eq_refl _)).
  discriminate.
Defined.

Lemma os_wait_results_snoc evs ev :
  os_wait_results (evs ++ [ev]) =
    os_wait_results evs ++
      match ev with EvOsWait _ res => [res] | _ => [] end.
Proof.
  unfold os_wait_results. rewrite omap_app. f_equal. by destruct ev.
Qed.

Lemma step_result_inv evs ev s s' :
  channel_inv s → result_inv evs s → step ev s = Some s' →
  result_inv (evs ++ [ev]) s'.
Proof.
  intros [_ _ _ Hna _] Hres Hstep.
  destruct s as [p ctx closed wt c eff].
  unfold result_inv in *. rewrite os_wait_results_snoc. simpl in *.
  destruct ev, wt; unfold step in Hstep; simpl in Hstep; try discriminate;
    repeat match type of Hstep with
    | context [match ?x with _ => _ end] =>
        let E := fresh "E" in destruct x eqn:E; simpl in Hstep; try discriminate
    end;
    injection Hstep as <-; simpl; rewrite ?app_nil_r; try done.
  all: try (destruct Hres as (r0 & Hr & Hw & Hg & Hret); exists r0;
            split_and!; try done;
            try (intros ? [= <-]; by eauto);
            try (intros ? [= <-]; f_equal; by eauto);
            try (intros e0 [= -> <-]; f_equal; by apply Hg)).
  all: try (rewrite Hres; eexists; split_and!; [done|by intros ? [= <-]| |];
            intros r Hc; subst c; by specialize (Hna eq_refl)).
Qed.

Lemma run_result_inv p ctx w evs s :
  run_events evs (wait_start p ctx w) = Some s → result_inv evs s.
Proof.
  revert s. induction evs as [|ev evs IH] using rev_ind; intros s Hrun.
  - by injection Hrun as <-.
  - apply run_events_snoc in Hrun as (s1 & Hrun1 & Hstep).
    eapply step_result_inv; [|by apply IH|done].
    by destruct (run_both_inv _ _ _ _ _ Hrun1).
Qed.

(** X16. In a run of [Wait] the OS wait returns at most once, and when
    [Wait] returns the natural-exit outcome its error is
    [errors.WithStack] of the error that OS wait returned: nil exactly
    when the OS wait returned nil. *)
Theorem Wait_passes_wait_error p ctx w evs s e :
  run_events evs (wait_start p ctx w) = Some s →
  ws_caller s = CReturned (Some FromWait) e →
  ∃ res, os_wait_results evs = [res] ∧
         e = errors.WithStack res ∧
         (e = None ↔ res = None).
Proof.
  intros Hrun Hc.
  pose proof (run_result_inv _ _ _ _ _ Hrun) as Hres.
  destruct (run_both_inv _ _ _ _ _ Hrun) as [_ [_ _ _ Hna _]].
  rewrite Hc in Hna. specialize (Hna eq_refl).
  unfold result_inv in Hres.
  destruct (ws_waiter s); try discriminate;
    destruct Hres as (res & Hr & _ & _ & Hret);
    (exists res; rewrite (Hret e Hc); split_and!; [done|done|by destruct res]).
Qed.

Lemma Wait_passes_wait_error_witness :
  ∃ res, os_wait_results [EvEnterSelect; EvOsWait exit_failed (Some (ExitErr 1));
                          EvHandOff; EvReturn] = [res] ∧
         Some (WithStackErr (ExitErr 1)) = errors.WithStack res ∧
         (Some (WithStackErr (ExitErr 1)) = None ↔ res = None).
Proof.
  exact (Wait_passes_wait_error running_proc background no_effects
           [EvEnterSelect; EvOsWait exit_failed (Some (ExitErr 1));
            EvHandOff; EvReturn] _
           (Some (WithStackErr (ExitErr 1))) eq_refl eq_refl).
Defined.

Lemma can_end_step ev s s1 :
  step ev s = Some s1 →
  (∃ evs' s', run_events evs' s1 = Some s' ∧ waiter_ended s') →
  ∃ evs' s', run_events evs' s = Some s' ∧ waiter_ended s'.
Proof.
  intros Hstep (evs' & s' & Hrun & Hend).
  exists (ev :: evs'), s'. simpl. by rewrite Hstep.
Qed.

(** Past its send, and past the [<-ctx.Done()] case, the waiter needs
    nobody to reach its end. *)
Lemma can_end_alone s :
  ws_waiter s ≠ WBlocked →
  (∀ res, ws_waiter s ≠ WSelect res) →
  ∃ evs' s', run_events evs' s = Some s' ∧ waiter_ended s'.
Proof.
  intros Hnb Hns.
  destruct s as [p ctx closed wt c eff]. simpl in *.
  destruct wt as [|res| |info rest| |h|h|].
  - done.
  - by destruct (Hns res).
  - destruct (Info p) as [info| |] eqn:Hinfo.
    + destruct (finish_runs
                  {| ws_proc := p; ws_ctx := ctx; ws_closed := closed;
                     ws_waiter := WSent; ws_caller := c; ws_eff := eff |}
                  info eq_refl ltac:(done) Hinfo) as (s' & Hrun & Hw & _).
      eexists _, s'. split; [exact Hrun|]. left. by eexists.
    + eexists [EvInfo], _. split; [simpl; unfold step; simpl; by rewrite Hinfo|].
      by right.
    + eexists [EvInfo], _. split; [simpl; unfold step; simpl; by rewrite Hinfo|].
      by right.
  - eexists (replicate (length rest) EvTrigger ++ [EvRunReturn; EvClose]), _.
    split; [by rewrite run_events_app, (run_triggers info rest)|].
    left. by eexists.
  - destruct (in_select c) eqn:Hsel.
    + eexists [EvInnerSend; EvClose], _.
      split; [simpl; unfold step; simpl; rewrite Hsel; simpl; unfold step; simpl; done|]. left. by eexists.
    + eexists [EvInnerDefault; EvClose], _.
      split; [simpl; unfold step; simpl; rewrite Hsel; simpl; unfold step; simpl; done|]. left. by eexists.
  - eexists [EvClose], _. split; [done|]. left. by eexists.
  - eexists [], _. split; [done|]. left. by eexists.
  - eexists [], _. split; [done|]. by right.
Qed.

(** X17. The background waiter does not leak: in every run, once the OS
    wait has returned, the waiter can reach its end, whatever the caller
    has done: if the context is cancelled it takes that case and closes
    the channel without a receiver; if not, the caller is still there to
    receive. *)
Theorem waiter_can_always_end p ctx w evs s :
  run_events evs (wait_start p ctx w) = Some s →
  ws_waiter s ≠ WBlocked →
  ∃ evs' s', run_events evs' s = Some s' ∧ waiter_ended s'.
Proof.
  intros Hrun Hnb.
  destruct (run_both_inv _ _ _ _ _ Hrun) as [Hinv Hch].
  destruct Hinv as [_ _ _ _ Hca _ _ _]. destruct Hch as [Hrc _ _ Hna _].
  destruct (ws_waiter s) as [|res| | | | | |] eqn:Hw;
    try (apply can_end_alone; by rewrite Hw).
  destruct s as [p' ctx' closed wt c eff]. simpl in *. subst wt.
  destruct (ctx_Done ctx') eqn:Hd.
  - eapply (can_end_step EvWaiterDone); [unfold step; simpl; by rewrite Hd|].
    by apply can_end_alone.
  - unfold caller_inv in Hca. simpl in Hca.
    destruct c as [| |src e|src e].
    + eapply (can_end_step EvEnterSelect); [done|].
      eapply (can_end_step EvHandOff); [done|]. by apply can_end_alone.
    + eapply (can_end_step EvHandOff); [done|]. by apply can_end_alone.
    + destruct src; simpl in *.
      * by specialize (Hna eq_refl).
      * destruct Hca as (_ & ? & _). congruence.
      * destruct (Hrc eq_refl) as [_ ?]. congruence.
    + destruct src as [[]|]; simpl in *.
      * by specialize (Hna eq_refl).
      * destruct Hca as (_ & ? & _). congruence.
      * destruct (Hrc eq_refl) as [_ ?]. congruence.
      * destruct Hca as [_ ?]. congruence.
Qed.

Lemma waiter_can_always_end_witness :
  ∃ evs' s',
    run_events evs'
      (default (wait_start running_proc background no_effects)
         (run_events [EvEnterSelect; EvCancel CtxCanceled; EvCallerDone;
                      EvOsWait exit_failed (Some (ExitErr 1))]
            (wait_start running_proc background no_effects))) = Some s' ∧
    waiter_ended s'.
Proof.
  apply (waiter_can_always_end running_proc background no_effects
           [EvEnterSelect; EvCancel CtxCanceled; EvCallerDone;
            EvOsWait exit_failed (Some (ExitErr 1))]);
    [reflexivity|discriminate].
Defined.

(** ** Locking in the wrapper *)



(** * The cached logger *)

Section logging.

Import options.

Context {F : Type}.
Implicit Types (cl : CachedLogger) (lp : LoggingPayload F) (cd : codecs F).

(** X19. [getSender] fails exactly when neither endpoint is configured;
    otherwise it returns a configured sender and no error: the error
    endpoint if it is preferred and set, else the output endpoint if
    set, else the error endpoint. *)
Theorem getSender_choice (preferError : bool) cl :
  getSender preferError cl =
    match cl_Error cl, cl_Output cl with
    | None, None => (None, Some (ENew "no output configured"))
    | Some e, None => (Some e, None)
    | None, Some o => (Some o, None)
    | Some e, Some o => (Some (if preferError then e else o), None)
    end ∧
  ((getSender preferError cl).2 = None ↔
   cl_Error cl ≠ None ∨ cl_Output cl ≠ None) ∧
  ((getSender preferError cl).2 = None →
   ∃ sd, (getSender preferError cl).1 = Some sd ∧
         (cl_Error cl = Some sd ∨ cl_Output cl = Some sd)).
Proof.
  unfold getSender.
  destruct preferError, (cl_Error cl) as [e|], (cl_Output cl) as [o|]; simpl;
    split_and!; try done;
    try (split; [intros _; by auto|done]);
    try (split; [done|intros [?|?]; done]);
    try (intros _; eexists; split; [done|by auto]).
Qed.

Lemma Resolve_Check (a : oerror) : Resolve (Check [] a) = None ↔ a = None.
Proof. by destruct a. Qed.

Lemma Resolve_Check_twice (a b : oerror) :
  Resolve (Check (Check [] a) b) = None ↔ a = None ∧ b = None.
Proof. destruct a, b; simpl; split; try done; by intros [? ?]. Qed.

(** X20. [Close] closes every configured endpoint once, the output
    endpoint first, and a sender that serves as both endpoints only once;
    it returns nil exactly when every [Close] it called returned nil. *)
Theorem Close_each_once (close_res : Sender → oerror) cl (closed : list Sender) :
  ∃ now,
    (Close close_res cl closed).2 = closed ++ now ∧
    NoDup now ∧
    (∀ sd, sd ∈ now ↔ cl_Output cl = Some sd ∨ cl_Error cl = Some sd) ∧
    (∀ o, cl_Output cl = Some o → head now = Some o) ∧
    ((Close close_res cl closed).1 = None ↔
     Forall (λ sd, close_res sd = None) now).
Proof.
  unfold Close.
  destruct (cl_Output cl) as [o|], (cl_Error cl) as [e|]; simpl.
  - case_bool_decide as Hne; simpl.
    + exists [o; e]. rewrite <- app_assoc. split_and!; try done.
      * apply NoDup_cons. split; [|apply NoDup_singleton].
        rewrite list_elem_of_singleton. congruence.
      * intros sd. rewrite !elem_of_cons, elem_of_nil.
        split; [intros [->|[->|[]]]; auto|intros [[= ->]|[= ->]]; auto].
      * rewrite Resolve_Check_twice, !Forall_cons, Forall_nil. tauto.
    + assert (e = o) as -> by (destruct (decide (e = o)); [done|congruence]).
      exists [o]. split_and!; try done.
      * apply NoDup_singleton.
      * intros sd. rewrite list_elem_of_singleton.
        split; [intros ->; auto|intros [[= ->]|[= ->]]; auto].
      * rewrite Resolve_Check, Forall_cons, Forall_nil. tauto.
  - exists [o]. split_and!; try done.
    + apply NoDup_singleton.
    + intros sd. rewrite list_elem_of_singleton.
      split; [intros ->; auto|intros [[= ->]|?]; done].
    + rewrite Resolve_Check, Forall_cons, Forall_nil. tauto.
  - exists [e]. simpl.
    split_and!; try done.
    + apply NoDup_singleton.
    + intros sd. rewrite list_elem_of_singleton.
      split; [intros ->; auto|intros [?|[= ->]]; done].
    + rewrite Resolve_Check, Forall_cons, Forall_nil. tauto.
  - exists []. rewrite app_nil_r. split_and!; try done.
    + apply NoDup_nil_2.
    + intros sd. rewrite elem_of_nil. split; [done|intros [?|?]; done].
Qed.

(** X21. [Validate] accepts a payload exactly when its data is not nil
    and its format is empty or one of "bson", "json" and "string",
    letter for letter. *)
Theorem Validate_accepts lp :
  Validate lp = None ↔
  Data lp ≠ VNil ∧ Format lp ∈ [""; "bson"; "json"; "string"].
Proof.
  unfold Validate, NewWhen, Errorf, Resolve,
    LoggingPayloadFormatBSON, LoggingPayloadFormatJSON, LoggingPayloadFormatSTRING.
  rewrite !elem_of_cons, elem_of_nil.
  destruct (Data lp); simpl;
    repeat case_bool_decide; simpl; split; try done;
    try (intros [? _]; done);
    try (intros _; split; [done|tauto]);
    try (intros [_ [?|[?|[?|[?|[]]]]]]; done).
Qed.

Lemma split_on_cons (sep : Ascii.ascii) (s : string) :
  ∃ h t, split_on sep s = h :: t.
Proof.
  destruct s as [|c r]; simpl; [by eauto|].
  destruct (Ascii.eqb c sep); [by eauto|].
  destruct (split_on sep r); by eauto.
Qed.

Lemma split_on_length (sep : Ascii.ascii) (s : string) :
  length (split_on sep s) = S (count_byte sep s).
Proof.
  induction s as [|c r IH]; simpl; [done|].
  destruct (Ascii.eqb c sep); simpl; [by rewrite IH|].
  destruct (split_on_cons sep r) as (h & t & Hr). rewrite Hr in *. by simpl in *.
Qed.

Lemma join_with_cons (sep : Ascii.ascii) (h : string) (t : list string) :
  join_with sep (h :: t) =
    match t with
    | [] => h
    | _ => String.append h (String sep (join_with sep t))
    end.
Proof. by destruct t. Qed.

Lemma split_on_join (sep : Ascii.ascii) (s : string) :
  join_with sep (split_on sep s) = s.
Proof.
  induction s as [|c r IH]; simpl; [done|].
  destruct (split_on_cons sep r) as (h & t & Hr).
  destruct (Ascii.eqb_spec c sep) as [->|Hne].
  - rewrite join_with_cons, Hr, <- Hr, IH. done.
  - rewrite Hr in *. rewrite join_with_cons in IH. rewrite join_with_cons.
    destruct t as [|h' t']; [by rewrite IH|]. by rewrite <- IH.
Qed.

Lemma batch_of_all {A} (f : A → oerr + Composer F) (g : A → Composer F)
    (l : list A) (batch : list (Composer F)) :
  (∀ x, x ∈ l → f x = inr (g x)) →
  batch_of f l batch = inr (NewGroupComposer (batch ++ map g l)).
Proof.
  revert batch. induction l as [|x l IH]; intros batch Hall; simpl.
  - by rewrite app_nil_r.
  - rewrite (Hall x) by left. rewrite IH by (intros; apply Hall; by right).
    by rewrite <- app_assoc.
Qed.

Lemma batch_of_first_error {A} (f : A → oerr + Composer F)
    (l1 : list A) (x : A) (l2 : list A) (e : oerr) (batch : list (Composer F)) :
  (∀ y, y ∈ l1 → ∃ m, f y = inr m) →
  f x = inl e →
  batch_of f (l1 ++ x :: l2) batch = inl (EStack e).
Proof.
  revert batch. induction l1 as [|y l1 IH]; intros batch Hok Hx; simpl.
  - by rewrite Hx.
  - destruct (Hok y) as [m ->]; [left|].
    apply IH; [|done]. intros; apply Hok; by right.
Qed.

Lemma produceMessage_text cd lp (data : string) :
  Format lp ≠ LoggingPayloadFormatJSON →
  Format lp ≠ LoggingPayloadFormatBSON →
  produceMessage cd lp data = inr (bytes_message lp data).
Proof.
  intros Hj Hb. unfold produceMessage, bytes_message.
  rewrite !bool_decide_eq_false_2 by done. by destruct (AddMetadata lp).
Qed.

Lemma convertMessage_text cd lp (v : value F) :
  Format lp ≠ LoggingPayloadFormatJSON →
  Format lp ≠ LoggingPayloadFormatBSON →
  ∃ m, convertMessage cd lp v = inr m.
Proof.
  intros Hj Hb. destruct v; simpl; rewrite ?produceMessage_text by done; by eauto.
Qed.

(** X22. A payload whose format is neither "json" nor "bson" is always
    converted, whatever its data and whether or not it is a multi
    message; and whatever the format, a single message whose data is
    neither a string nor a byte slice is always converted: only parsing
    can fail. *)
Theorem convert_fails_only_in_parsing cd lp :
  (Format lp ≠ "json" → Format lp ≠ "bson" → ∃ m, convert cd lp = inr m) ∧
  (IsMulti lp = false →
   (∀ s, Data lp ≠ VString s) → (∀ b, Data lp ≠ VBytes b) →
   ∃ m, convert cd lp = inr m).
Proof.
  split.
  - intros Hj Hb. unfold convert.
    destruct (IsMulti lp); [|by apply convertMessage_text].
    assert (∀ l : list string, ∃ m,
              batch_of (produceMessage cd lp) l [] = inr m) as Hbatch.
    { intros l. eexists. apply (batch_of_all _ (bytes_message lp)).
      intros x _. by apply produceMessage_text. }
    unfold convertMultiMessage, splitByteSlice.
    rewrite bool_decide_eq_true_2 by done.
    destruct (Data lp) as [|s|b|l|l|f|l|l|tag]; simpl; try by eauto.
    generalize (@nil (Composer F)).
    induction l as [|x l IH]; intros acc; simpl; [by eauto|].
    destruct (convertMessage_text cd lp x Hj Hb) as [m ->]. apply IH.
  - intros Hm Hs Hb. unfold convert. rewrite Hm.
    destruct (Data lp) as [|s|b|l|l|f|l|l|tag]; simpl; try by eauto.
    + by destruct (Hs s).
    + by destruct (Hb b).
Qed.

(** X23. A multi message made from a string, in a format that is not
    parsed, is the group of one bytes message for each piece of the
    string between newlines, in order: one more message than there are
    newlines (one empty message for the empty string), and the pieces
    joined by newlines are the string. *)
Theorem convert_multi_string cd lp (s : string) :
  IsMulti lp = true →
  Data lp = VString s →
  Format lp ≠ "json" →
  Format lp ≠ "bson" →
  convert cd lp
    = inr (NewGroupComposer (map (bytes_message lp) (split_on newline s))) ∧
  length (split_on newline s) = S (count_byte newline s) ∧
  join_with newline (split_on newline s) = s.
Proof.
  intros Hm Hd Hj Hb. split_and!.
  - unfold convert, convertMultiMessage. rewrite Hm, Hd. simpl.
    apply (batch_of_all _ (bytes_message lp)).
    intros x _. by apply produceMessage_text.
  - apply split_on_length.
  - apply split_on_join.
Qed.

(** X24. A multi message made from a list of strings in the "json"
    format is all or nothing: when every string parses it is the group
    of their fields messages, in order; otherwise it is the error of the
    first string that does not parse, wrapped, and no message. *)
Theorem convert_json_lines cd lp (l : list string) :
  IsMulti lp = true →
  Data lp = VStrings l →
  Format lp = "json" →
  (∀ fs, Forall2 (λ x f, json_Unmarshal cd x = inr f) l fs →
         convert cd lp = inr (NewGroupComposer (map (fields_message lp) fs))) ∧
  (∀ l1 x l2 e,
     l = l1 ++ x :: l2 →
     (∀ y, y ∈ l1 → ∃ f, json_Unmarshal cd y = inr f) →
     json_Unmarshal cd x = inl e →
     convert cd lp
       = inl (EStack (EWrap e "problem parsing json from message body"))).
Proof.
  intros Hm Hd Hf.
  assert (∀ x, produceMessage cd lp x =
               match json_Unmarshal cd x with
               | inl e => inl (EWrap e "problem parsing json from message body")
               | inr f => inr (fields_message lp f)
               end) as Hprod.
  { intros x. unfold produceMessage. by rewrite bool_decide_eq_true_2 by done. }
  unfold convert, convertMultiMessage. rewrite Hm, Hd. simpl. split.
  - intros fs Hall.
    assert (∀ acc, batch_of (produceMessage cd lp) l acc
                   = inr (NewGroupComposer (acc ++ map (fields_message lp) fs)))
      as Hgen; [|apply (Hgen [])].
    clear Hd. induction Hall as [|x f l' fs' Hx Hrest IH]; intros acc; simpl.
    + by rewrite app_nil_r.
    + rewrite Hprod, Hx, IH. by rewrite <- app_assoc.
  - intros l1 x l2 e -> Hok Hx.
    apply batch_of_first_error.
    + intros y Hy. destruct (Hok y Hy) as [f Hyf]. rewrite Hprod, Hyf. by eauto.
    + by rewrite Hprod, Hx.
Qed.



End logging.

Lemma convert_multi_string_witness :
  options.convert sample_codecs text_payload
    = inr (options.NewGroupComposer
             [options.NewSimpleBytesMessage 40 "a";
              options.NewSimpleBytesMessage 40 "b"]) ∧
  length (options.split_on options.newline two_lines) = 2%nat ∧
  options.join_with options.newline (options.split_on options.newline two_lines)
    = two_lines.
Proof.
  apply (convert_multi_string sample_codecs text_payload two_lines);
    [reflexivity|reflexivity|discriminate|discriminate].
Defined.

Lemma convert_json_lines_witness :
  (∀ fs, Forall2 (λ x f, options.json_Unmarshal sample_codecs x = inr f)
           ["{}"; "{}"] fs →
         options.convert sample_codecs json_payload
           = inr (options.NewGroupComposer
                    (map (options.fields_message json_payload) fs))) ∧
  (∀ l1 x l2 e,
     ["{}"; "{}"] = l1 ++ x :: l2 →
     (∀ y, y ∈ l1 → ∃ f, options.json_Unmarshal sample_codecs y = inr f) →
     options.json_Unmarshal sample_codecs x = inl e →
     options.convert sample_codecs json_payload
       = inl (options.EStack
                (options.EWrap e "problem parsing json from message body"))).
Proof.
  apply (convert_json_lines sample_codecs json_payload ["{}"; "{}"]);
    reflexivity.
Defined.


(** X26. While the logger registry has no BSON unmarshaler, no text in
    the "bson" format becomes a message: [produceMessage] fails on every
    input with "no suitable unmarshaller provided", and so does the
    conversion of a string or a byte slice as a single message and of a
    string as a multi message. *)
Theorem bson_needs_unmarshaler {F : Type} (cd : options.codecs F)
    (lp : options.LoggingPayload F) :
  options.Format lp = "bson" →
  options.bson_Unmarshaler cd = None →
  (∀ data, options.produceMessage cd lp data
           = inl (options.ENew "no suitable unmarshaller provided")) ∧
  (options.IsMulti lp = false →
   ∀ s, options.Data lp = options.VString s ∨ options.Data lp = options.VBytes s →
        options.convert cd lp
          = inl (options.ENew "no suitable unmarshaller provided")) ∧
  (options.IsMulti lp = true →
   ∀ s, options.Data lp = options.VString s →
        options.convert cd lp
          = inl (options.EStack
                   (options.ENew "no suitable unmarshaller provided"))).
Proof.
  intros Hf Hu.
  assert (∀ data, options.produceMessage cd lp data
                  = inl (options.ENew "no suitable unmarshaller provided"))
    as Hprod.
  { intros data. unfold options.produceMessage.
    rewrite bool_decide_eq_false_2 by (rewrite Hf; discriminate).
    rewrite bool_decide_eq_true_2 by done. by rewrite Hu. }
  split_and!; [done| |].
  - intros Hm s [Hd|Hd]; unfold options.convert; rewrite Hm, Hd; simpl;
      apply Hprod.
  - intros Hm s Hd. unfold options.convert, options.convertMultiMessage.
    rewrite Hm, Hd. simpl.
    destruct (options.split_on options.newline s) as [|h t] eqn:Hs.
    + by destruct s; simpl in Hs; repeat case_match.
    + simpl. by rewrite Hprod.
Qed.

Lemma bson_needs_unmarshaler_witness :
  (∀ data, options.produceMessage sample_codecs bson_payload data
           = inl (options.ENew "no suitable unmarshaller provided")) ∧
  (options.IsMulti bson_payload = false →
   ∀ s, options.Data bson_payload = options.VString s ∨
        options.Data bson_payload = options.VBytes s →
        options.convert sample_codecs bson_payload
          = inl (options.ENew "no suitable unmarshaller provided")) ∧
  (options.IsMulti bson_payload = true →
   ∀ s, options.Data bson_payload = options.VString s →
        options.convert sample_codecs bson_payload
          = inl (options.EStack
                   (options.ENew "no suitable unmarshaller provided"))).
Proof.
  apply (bson_needs_unmarshaler sample_codecs bson_payload); reflexivity.
Defined.
